(** * mylib: typed console reader and heterogeneous field container

    A shallow embedding of [validators.h], [io.h] ([read_value],
    [read_number]) and [data_container.h] ([DataContainer] with its bulk
    populate and print helpers), together with the part of the C++ stream
    library these functions call. *)

From Stdlib Require Import Bool Arith ZArith List String Ascii Lia.
From Stdlib Require Import DecimalString SpecFloat.
From Equations Require Import Equations.
Import ListNotations.

Open Scope string_scope.

(** ** The stream library used by the code *)

Module std.

(** The two exception classes thrown by the library. *)
Inductive exception : Type :=
| invalid_argument (what : string)
| out_of_range (what : string).

(** Result of running a piece of code from state [s : S].  [Spins] is the
    state reached when the iteration budget of a retry loop is used up while
    the loop is still running. *)
Inductive outcome (S A : Type) : Type :=
| Returns (a : A) (s : S)
| Throws (e : exception) (s : S)
| Spins (s : S).
Arguments Returns {S A} a s.
Arguments Throws {S A} e s.
Arguments Spins {S A} s.

(** [std::istream]: the characters not yet extracted and the two state bits
    the code can observe ([badbit] is never raised by a character source). *)
Record istream : Type := mk_istream {
  rdbuf : string;
  eofbit : bool;
  failbit : bool
}.

Definition good (s : istream) : bool := negb (eofbit s) && negb (failbit s).
Definition fail (s : istream) : bool := failbit s.
Definition clear (s : istream) : istream := mk_istream (rdbuf s) false false.
Definition setstate_failbit (s : istream) : istream :=
  mk_istream (rdbuf s) (eofbit s) true.

Definition newline : ascii := "010"%char.
Definition endl : string := String newline EmptyString.

(** [std::isspace] in the "C" locale: space and the controls 9..13. *)
Definition isspace (c : ascii) : bool :=
  let n := nat_of_ascii c in
  (n =? 32)%nat || ((9 <=? n)%nat && (n <=? 13)%nat).

Definition isdigit (c : ascii) : bool :=
  let n := nat_of_ascii c in (48 <=? n)%nat && (n <=? 57)%nat.

(** The [skipws] step of a formatted input sentry. *)
Fixpoint skipws (b : string) : string :=
  match b with
  | EmptyString => EmptyString
  | String c b' => if isspace c then skipws b' else b
  end.

(** Characters after the first newline, and whether the end of the source was
    reached before one was found. *)
Fixpoint after_newline (b : string) : string * bool :=
  match b with
  | EmptyString => (EmptyString, true)
  | String c b' => if Ascii.eqb c newline then (b', false) else after_newline b'
  end.

(** Characters before the first newline. *)
Fixpoint before_newline (b : string) : string :=
  match b with
  | EmptyString => EmptyString
  | String c b' =>
      if Ascii.eqb c newline then EmptyString else String c (before_newline b')
  end.

(** [is.ignore(std::numeric_limits<std::streamsize>::max(), '\n')]: an
    unformatted input function.  Its sentry raises [failbit] and extracts
    nothing when the stream is not good. *)
Definition ignore (s : istream) : istream :=
  if good s then
    let (b, e) := after_newline (rdbuf s) in mk_istream b e false
  else setstate_failbit s.

(** [std::getline(is, str)]: on a stream that is not good, [failbit] is
    raised and [str] is left alone; otherwise [str] is erased and filled up
    to the newline, which is extracted and dropped.  Extracting no character
    at all raises [failbit]. *)
Definition getline (s : istream) (str : string) : istream * string :=
  if good s then
    match rdbuf s with
    | EmptyString => (mk_istream EmptyString true true, EmptyString)
    | b => let (rest, e) := after_newline b in
           (mk_istream rest e false, before_newline b)
    end
  else (setstate_failbit s, str).

(** What the type-specific part of [operator>>] reports: the value it
    stores into its argument (if it stores one), the characters left, whether
    it ran into the end of the source, and whether the conversion failed. *)
Record extraction (A : Type) : Type := mk_extraction {
  ext_store : option A;
  ext_rest : string;
  ext_eof : bool;
  ext_fail : bool
}.
Arguments mk_extraction {A} _ _ _ _.
Arguments ext_store {A} _.
Arguments ext_rest {A} _.
Arguments ext_eof {A} _.
Arguments ext_fail {A} _.

(** The variable after an extraction that stored [st] into it. *)
Definition stored {A} (st : option A) (value : A) : A :=
  match st with Some v => v | None => value end.

(** [is >> value] for a type whose conversion is [get]: the sentry skips
    leading whitespace (failing with [eofbit|failbit] when nothing else is
    left, the argument untouched), then the conversion runs; a failed
    conversion raises [failbit]. *)
Definition formatted_input {A} (get : string -> extraction A) (s : istream)
  : istream * option A :=
  if good s then
    match skipws (rdbuf s) with
    | EmptyString => (mk_istream EmptyString true true, None)
    | b => let r := get b in
           (mk_istream (ext_rest r) (ext_eof r) (ext_fail r), ext_store r)
    end
  else (setstate_failbit s, None).

(** [operator>>] and [operator<<] of a type. *)
Record stream_ops (A : Type) : Type := mk_stream_ops {
  get_from : string -> extraction A;
  put_to : A -> string
}.
Arguments mk_stream_ops {A} _ _.
Arguments get_from {A} _ _.
Arguments put_to {A} _ _.

(** *** Text conversions of [int] and [char] *)

Fixpoint span_digits (b : string) : string * string :=
  match b with
  | EmptyString => (EmptyString, EmptyString)
  | String c b' =>
      if isdigit c then let (ds, r) := span_digits b' in (String c ds, r)
      else (EmptyString, b)
  end.

Fixpoint digits_value (acc : Z) (ds : string) : Z :=
  match ds with
  | EmptyString => acc
  | String c ds' =>
      digits_value (10 * acc + Z.of_nat (nat_of_ascii c - 48)) ds'
  end.

Definition is_empty (s : string) : bool :=
  match s with EmptyString => true | _ => false end.

(** [num_get] for a signed integer type with the range [lo..hi], decimal
    base, no digit grouping: an optional sign, then the longest run of
    digits.  No digit is a failure that stores zero; a value outside the
    range is a failure that stores the nearest bound; running out of
    characters while looking for the next digit raises [eofbit]. *)
Definition num_get_signed (lo hi : Z) (b : string) : extraction Z :=
  let '(neg, b1) :=
    match b with
    | String "-"%char b' => (true, b')
    | String "+"%char b' => (false, b')
    | _ => (false, b)
    end in
  let (ds, rest) := span_digits b1 in
  if is_empty ds then mk_extraction (Some 0%Z) rest (is_empty rest) true
  else
    let v := if neg then (- digits_value 0 ds)%Z else digits_value 0 ds in
    if (v <? lo)%Z then mk_extraction (Some lo) rest (is_empty rest) true
    else if (hi <? v)%Z then mk_extraction (Some hi) rest (is_empty rest) true
    else mk_extraction (Some v) rest (is_empty rest) false.

Definition put_integer (v : Z) : string :=
  NilZero.string_of_int (Z.to_int v).

Definition INT_MIN : Z := (- 2 ^ 31)%Z.
Definition INT_MAX : Z := (2 ^ 31 - 1)%Z.

Definition int_ops : stream_ops Z :=
  mk_stream_ops (num_get_signed INT_MIN INT_MAX) put_integer.

(** [is >> c] for [char c]: after the sentry, the next character is taken
    as it is; [os << c] writes it back.  [char] is the signed eight-bit
    type: the bytes 128..255 are the values -128..-1. *)
Definition char_of_byte (c : ascii) : Z :=
  let n := Z.of_nat (nat_of_ascii c) in
  if (n <? 128)%Z then n else (n - 256)%Z.

Definition byte_of_char (v : Z) : ascii :=
  ascii_of_nat (Z.to_nat (v mod 256)).

Definition get_char (b : string) : extraction Z :=
  match b with
  | EmptyString => mk_extraction None EmptyString true true
  | String c b' => mk_extraction (Some (char_of_byte c)) b' false false
  end.

Definition put_char (v : Z) : string :=
  String (byte_of_char v) EmptyString.

Definition char_ops : stream_ops Z := mk_stream_ops get_char put_char.

End std.

(** ** The library *)

Module mylib.
Import std.

(** *** Types the templates are instantiated at

    A template argument brings its carrier, its stream operators and (for the
    arithmetic types) its [std::numeric_limits].  The constructors are the
    cases the code tells apart: [std::is_integral], [std::is_floating_point],
    [std::string], and every other type. *)

Record integral_type : Type := mk_integral {
  int_stream : stream_ops Z;
  int_lowest : Z;
  int_max : Z
}.

Record floating_type : Type := mk_floating {
  fp_stream : stream_ops spec_float;
  fp_lowest : spec_float;
  fp_max : spec_float
}.

Record class_type : Type := mk_class {
  class_carrier : Type;
  class_default : class_carrier;
  class_stream : stream_ops class_carrier
}.

Inductive ctype : Type :=
| Integral (it : integral_type)
| FloatingPoint (ft : floating_type)
| StdString
| Class (ct : class_type).

Definition cval (T : ctype) : Type :=
  match T with
  | Integral _ => Z
  | FloatingPoint _ => spec_float
  | StdString => string
  | Class ct => class_carrier ct
  end.

Definition int_type : integral_type := mk_integral int_ops INT_MIN INT_MAX.
Definition char_type : integral_type := mk_integral char_ops (-128) 127.
Definition int : ctype := Integral int_type.
Definition char : ctype := Integral char_type.

(** Value-initialisation [T()]: zero for arithmetic types, the empty string,
    the default constructor for a class. *)
Definition value_init (T : ctype) : cval T :=
  match T with
  | Integral _ => 0%Z
  | FloatingPoint _ => S754_zero false
  | StdString => EmptyString
  | Class ct => class_default ct
  end.

(** [os << v] at type [T]. *)
Definition insert (T : ctype) : cval T -> string :=
  match T with
  | Integral it => put_to (int_stream it)
  | FloatingPoint ft => put_to (fp_stream ft)
  | StdString => fun s => s
  | Class ct => put_to (class_stream ct)
  end.

(** *** validators.h *)

Definition isnan (v : spec_float) : bool :=
  match v with S754_nan => true | _ => false end.
Definition isinf (v : spec_float) : bool :=
  match v with S754_infinity _ => true | _ => false end.

Module InputValidator.

(** [InputValidator<T>::is_valid]: the primary template, the two partial
    specialisations and the one for [std::string]. *)
Definition is_valid (T : ctype) : cval T -> bool :=
  match T with
  | Integral _ => fun _ => true
  | FloatingPoint _ => fun value => negb (isnan value) && negb (isinf value)
  | StdString => fun value => negb (is_empty value)
  | Class _ => fun _ => true
  end.

Definition type_name (T : ctype) : string :=
  match T with
  | Integral _ => "integer"
  | FloatingPoint _ => "number"
  | StdString => "text"
  | Class _ => "value"
  end.

End InputValidator.

(** *** io.h *)

(** The process state a reader runs in: [std::cin] and everything written to
    [std::cout] so far. *)
Record world : Type := mk_world {
  cin : istream;
  cout : string
}.

Definition print (text : string) (w : world) : world :=
  mk_world (cin w) (cout w ++ text).
Definition with_cin (s : istream) (w : world) : world :=
  mk_world s (cout w).

(** Default arguments of [read_value]. *)
Definition default_validator (T : ctype) : cval T -> bool := fun _ => true.
Definition default_error_msg : string := "Invalid input. Please try again.".

(** The non-string branch of the loop body: [std::cin >> value], then
    [ignore] to the end of the line, then the [fail()] test with its
    [clear]/[ignore] recovery.  The flag tells whether the test fired. *)
Definition read_token {A} (ops : stream_ops A) (value : A) (s : istream)
  : istream * A * bool :=
  let (s1, st) := formatted_input (get_from ops) s in
  let value1 := stored st value in
  let s2 := ignore s1 in
  if fail s2 then (ignore (clear s2), value1, true)
  else (s2, value1, false).

(** The input step selected by [if constexpr (std::is_same_v<T, std::string>)]. *)
Definition read_input (T : ctype) : cval T -> istream -> istream * cval T * bool :=
  match T with
  | Integral it => read_token (int_stream it)
  | FloatingPoint ft => read_token (fp_stream ft)
  | StdString => fun value s => (getline s value, false)
  | Class ct => read_token (class_stream ct)
  end.

(** How one pass through the body of [while (!valid)] ends. *)
Inductive iteration (T : ctype) : Type :=
| Again (value : cval T) (w : world)
| Done (value : cval T) (w : world).
Arguments Again {T} value w.
Arguments Done {T} value w.

Section read_value.
Context (T : ctype) (prompt : string) (validator : cval T -> bool)
        (error_msg : string).

Definition loop_body (value : cval T) (w : world) : iteration T :=
  let w1 := print prompt w in
  let '(s, value1, failed) := read_input T value (cin w1) in
  let w2 := with_cin s w1 in
  if failed then
    Again value1
      (print ("Error: Invalid " ++ InputValidator.type_name T ++ " format. "
              ++ error_msg ++ endl) w2)
  else if InputValidator.is_valid T value1 && validator value1 then
    Done value1 w2
  else
    Again value1 (print (error_msg ++ endl) w2).

Fixpoint read_value_loop (fuel : nat) (value : cval T) (w : world)
  : outcome world (cval T) :=
  match fuel with
  | O => Spins w
  | S fuel' =>
      match loop_body value w with
      | Done v w' => Returns v w'
      | Again v w' => read_value_loop fuel' v w'
      end
  end.

(** [T value;] is the empty string for [std::string]; for the other types
    an extraction that succeeds stores into the variable before the loop
    reads it, and the variable starts here from the value-initialised one. *)
Definition read_value (fuel : nat) (w : world) : outcome world (cval T) :=
  read_value_loop fuel (value_init T) w.

End read_value.

(** Arithmetic types, for [static_assert(std::is_arithmetic_v<T>)]. *)
Inductive arithmetic : Type :=
| ArInt (it : integral_type)
| ArFloat (ft : floating_type).

Definition arith_type (N : arithmetic) : ctype :=
  match N with ArInt it => Integral it | ArFloat ft => FloatingPoint ft end.

Definition numeric_limits_lowest (N : arithmetic) : cval (arith_type N) :=
  match N with ArInt it => int_lowest it | ArFloat ft => fp_lowest ft end.
Definition numeric_limits_max (N : arithmetic) : cval (arith_type N) :=
  match N with ArInt it => int_max it | ArFloat ft => fp_max ft end.

(** [a <= b] and [a >= b] of the built-in arithmetic types. *)
Definition le (N : arithmetic) : cval (arith_type N) -> cval (arith_type N) -> bool :=
  match N with
  | ArInt _ => Z.leb
  | ArFloat _ => SFleb
  end.
Definition ge (N : arithmetic) : cval (arith_type N) -> cval (arith_type N) -> bool :=
  match N with
  | ArInt _ => Z.geb
  | ArFloat _ => fun a b =>
      match SFcompare a b with Some (Gt | Eq) => true | _ => false end
  end.

Definition default_prompt : string := "Enter a number: ".

Definition or_default {A} (d : A) (o : option A) : A :=
  match o with Some a => a | None => d end.

Section read_number.
Context (N : arithmetic).
Let T := arith_type N.

Definition range_validator (min_value max_value : cval T) : cval T -> bool :=
  fun num => ge N num min_value && le N num max_value.

Definition range_error_msg (min_value max_value : cval T) : string :=
  "Please enter a number between " ++ insert T min_value ++ " and "
    ++ insert T max_value ++ ".".

(** An argument left out is [None] and takes the declared default. *)
Definition read_number (prompt : option string)
    (min_value max_value : option (cval T)) (fuel : nat) (w : world)
  : outcome world (cval T) :=
  let prompt := or_default default_prompt prompt in
  let min_value := or_default (numeric_limits_lowest N) min_value in
  let max_value := or_default (numeric_limits_max N) max_value in
  read_value T prompt (range_validator min_value max_value)
             (range_error_msg min_value max_value) fuel w.

End read_number.

Definition stdin (text : string) : world :=
  mk_world (mk_istream text false false) EmptyString.


(** *** data_container.h *)

(** [std::tuple<Fields...>]. *)
Fixpoint tuple (Fields : list ctype) : Type :=
  match Fields with
  | [] => unit
  | T :: Ts => (cval T * tuple Ts)%type
  end.

(** A template argument [size_t Index] that compiles, that is, one below
    [sizeof...(Fields)]: [None] is position 0 and [Some j] the position after
    [j]. *)
Fixpoint Index (Fields : list ctype) : Type :=
  match Fields with
  | [] => Empty_set
  | _ :: Ts => option (Index Ts)
  end.

Fixpoint index_value {Fields : list ctype} : Index Fields -> nat :=
  match Fields with
  | [] => fun i => match i with end
  | _ :: Ts => fun i =>
      match i with
      | None => O
      | Some j => S (index_value j)
      end
  end.

(** [std::tuple_element_t<Index, std::tuple<Fields...>>]. *)
Fixpoint tuple_element_t {Fields : list ctype} : Index Fields -> ctype :=
  match Fields with
  | [] => fun i => match i with end
  | T :: Ts => fun i =>
      match i with
      | None => T
      | Some j => tuple_element_t j
      end
  end.

(** The default constructor of the tuple value-initialises each element. *)
Fixpoint tuple_init (Fields : list ctype) : tuple Fields :=
  match Fields with
  | [] => tt
  | T :: Ts => (value_init T, tuple_init Ts)
  end.

(** [std::get<Index>(t)] read, and [std::get<Index>(t) = value]. *)
Fixpoint get {Fields : list ctype}
  : forall i : Index Fields, tuple Fields -> cval (tuple_element_t i) :=
  match Fields with
  | [] => fun i => match i with end
  | T :: Ts => fun i =>
      match i with
      | None => fun t => fst t
      | Some j => fun t => get j (snd t)
      end
  end.

Fixpoint assign {Fields : list ctype}
  : forall i : Index Fields, cval (tuple_element_t i) -> tuple Fields -> tuple Fields :=
  match Fields with
  | [] => fun i => match i with end
  | T :: Ts => fun i =>
      match i with
      | None => fun value t => (value, snd t)
      | Some j => fun value t => (fst t, assign j value (snd t))
      end
  end.

(** [std::make_index_sequence<sizeof...(Fields)>]. *)
Fixpoint make_index_sequence (Fields : list ctype) : list (Index Fields) :=
  match Fields with
  | [] => []
  | _ :: Ts => None :: map Some (make_index_sequence Ts)
  end.

(** The fold expression [(f<Indices>(x), ...)]: the calls run left to right
    on the same object, and an exception or a call that does not come back
    ends the sequence. *)
Fixpoint comma_fold {St Ix : Type} (f : Ix -> St -> outcome St unit)
    (indices : list Ix) (s : St) : outcome St unit :=
  match indices with
  | [] => Returns tt s
  | i :: rest =>
      match f i s with
      | Returns _ s' => comma_fold f rest s'
      | stopped => stopped
      end
  end.

Record DataContainer (Fields : list ctype) : Type := mk_DataContainer {
  data : tuple Fields;
  field_names : list string
}.
Arguments mk_DataContainer {Fields} _ _.
Arguments data {Fields} _.
Arguments field_names {Fields} _.

Section DataContainer.
Context {Fields : list ctype}.

Definition arity_error : exception :=
  invalid_argument "Number of field names must match number of fields".
Definition index_error : exception :=
  out_of_range "Field index out of range".

(** The constructor. *)
Definition construct (names : list string) : exception + DataContainer Fields :=
  let this := mk_DataContainer (tuple_init Fields) names in
  if negb (List.length names =? List.length Fields)%nat then inl arity_error
  else inr this.

Definition set_field (i : Index Fields) (value : cval (tuple_element_t i))
    (this : DataContainer Fields) : DataContainer Fields :=
  mk_DataContainer (assign i value (data this)) (field_names this).

Definition get_field (i : Index Fields) (this : DataContainer Fields)
  : cval (tuple_element_t i) :=
  get i (data this).

Definition get_field_name (index : nat) (this : DataContainer Fields)
  : exception + string :=
  if (List.length (field_names this) <=? index)%nat then inl index_error
  else inr (nth index (field_names this) EmptyString).

Definition size (this : DataContainer Fields) : nat := List.length Fields.

(** The container is passed by reference: it is part of the state. *)
Definition read_and_set_field (fuel : nat) (i : Index Fields)
    (s : DataContainer Fields * world)
  : outcome (DataContainer Fields * world) unit :=
  let (container, w) := s in
  match get_field_name (index_value i) container with
  | inl e => Throws e s
  | inr name =>
      let prompt := "Enter " ++ name ++ ": " in
      match read_value (tuple_element_t i) prompt
              (default_validator _) default_error_msg fuel w with
      | Returns value w' => Returns tt (set_field i value container, w')
      | Throws e w' => Throws e (container, w')
      | Spins w' => Spins (container, w')
      end
  end.

Definition read_data_container_helper (fuel : nat)
    (indices : list (Index Fields)) (s : DataContainer Fields * world)
  : outcome (DataContainer Fields * world) unit :=
  comma_fold (read_and_set_field fuel) indices s.

Definition read_data_container (names : list string) (fuel : nat) (w : world)
  : outcome world (DataContainer Fields) :=
  match construct names with
  | inl e => Throws e w
  | inr container =>
      match read_data_container_helper fuel (make_index_sequence Fields)
              (container, w) with
      | Returns _ (c, w') => Returns c w'
      | Throws e (_, w') => Throws e w'
      | Spins (_, w') => Spins w'
      end
  end.

Definition print_field (container : DataContainer Fields) (i : Index Fields)
    (w : world) : outcome world unit :=
  match get_field_name (index_value i) container with
  | inl e => Throws e w
  | inr name =>
      Returns tt
        (print endl
           (print (insert _ (get_field i container))
              (print ": " (print name w))))
  end.

Definition print_data_container_helper (container : DataContainer Fields)
    (indices : list (Index Fields)) (w : world) : outcome world unit :=
  comma_fold (print_field container) indices w.

Definition print_data_container (container : DataContainer Fields)
    (header : string) (w : world) : outcome world unit :=
  let w1 := if negb (is_empty header) then print endl (print header w) else w in
  print_data_container_helper container (make_index_sequence Fields) w1.

End DataContainer.


(** ** What the claims speak about *)

Section attempts.
Context (T : ctype) (prompt : string) (validator : cval T -> bool)
        (error_msg : string).

(** How attempt number [n] (counted from 0) ends, when every attempt
    before it was rejected. *)
Fixpoint attempt (n : nat) (value : cval T) (w : world)
  : option (iteration T) :=
  match n with
  | O => Some (loop_body T prompt validator error_msg value w)
  | S n' =>
      match loop_body T prompt validator error_msg value w with
      | Again v w' => attempt n' v w'
      | Done _ _ => None
      end
  end.

End attempts.

(** [operator>>] of the types that take the non-string branch. *)
Definition token_stream (T : ctype) : option (stream_ops (cval T)) :=
  match T with
  | Integral it => Some (int_stream it)
  | FloatingPoint ft => Some (fp_stream ft)
  | StdString => None
  | Class ct => Some (class_stream ct)
  end.

(** What is left of the input once its first whitespace-delimited token, and
    nothing more, has been taken. *)
Fixpoint skip_token (b : string) : string :=
  match b with
  | EmptyString => EmptyString
  | String c b' => if isspace c then b else skip_token b'
  end.
Definition after_first_token (b : string) : string := skip_token (skipws b).

Fixpoint has_newline (b : string) : bool :=
  match b with
  | EmptyString => false
  | String c b' => Ascii.eqb c newline || has_newline b'
  end.

(** A [set_field<i>(v)] call, and a sequence of them run on a container. *)
Definition update (Fields : list ctype) : Type :=
  { i : Index Fields & cval (tuple_element_t i) }.

Definition apply_update {Fields} (c : DataContainer Fields) (u : update Fields)
  : DataContainer Fields :=
  set_field (projT1 u) (projT2 u) c.

Definition apply_updates {Fields} (us : list (update Fields))
    (c : DataContainer Fields) : DataContainer Fields :=
  fold_left apply_update us c.

(** The state a run ends in, whichever way it ends. *)
Definition final_state {St A} (o : outcome St A) : St :=
  match o with Returns _ s | Throws _ s | Spins s => s end.

(** The line printed for field [i], and a list of lines in a row. *)
Definition field_line {Fields} (names : list string) (c : DataContainer Fields)
    (i : Index Fields) : string :=
  nth (index_value i) names EmptyString ++ ": "
    ++ insert _ (get_field i c) ++ endl.

Definition lines (l : list string) : string := fold_right append EmptyString l.

(** The predicate [v -> min <= v <= max], in the spec's words. *)
Definition within_bounds (N : arithmetic)
    (min_value max_value v : cval (arith_type N)) : bool :=
  le N min_value v && le N v max_value.

(** ** The rest of the library *)

(** Sequencing of two pieces of code: the second runs from the state the
    first returns in. *)
Definition bind {St A B} (m : outcome St A) (k : A -> St -> outcome St B)
  : outcome St B :=
  match m with
  | Returns a s => k a s
  | Throws e s => Throws e s
  | Spins s => Spins s
  end.

(** *** types.h and its [to_string] overloads *)

Module NumberType.
Inductive t : Type := Even | Odd | Positive | Negative | Zero.
End NumberType.

Module PrimeType.
Inductive t : Type := Prime | NotPrime.
Definition eqb (a b : t) : bool :=
  match a, b with
  | Prime, Prime | NotPrime, NotPrime => true
  | _, _ => false
  end.
End PrimeType.

Definition to_string_NumberType (type : NumberType.t) : string :=
  match type with
  | NumberType.Even => "Even"
  | NumberType.Odd => "Odd"
  | NumberType.Positive => "Positive"
  | NumberType.Negative => "Negative"
  | NumberType.Zero => "Zero"
  end.

Definition to_string_PrimeType (type : PrimeType.t) : string :=
  match type with
  | PrimeType.Prime => "Prime"
  | PrimeType.NotPrime => "Not Prime"
  end.


(** *** io.h: primes and ranges, instantiated at [int] *)

(** [for (T i = from; i <= to; ++i) body(i)] and
    [for (T i = from; i >= to; --i) body(i)] at [T = int]; an exception
    leaves the loop.  The counter is taken in [Z]: this is the loop of the
    source as long as the counter stays an [int], that is for [to < INT_MAX]
    going up and [INT_MIN < to] going down; at the extreme bound the
    increment of the source overflows, which the language leaves undefined,
    and the properties below exclude it. *)
Equations? for_up (body : Z -> world -> outcome world unit) (to i : Z)
    (w : world) : outcome world unit by wf (Z.to_nat (to + 1 - i)) lt :=
  for_up body to i w with Z_le_gt_dec i to => {
    | left _ =>
        match body i w with
        | Returns _ w' => for_up body to (i + 1) w'
        | stopped => stopped
        end;
    | right _ => Returns tt w }.
Proof. lia. Qed.

Equations? for_down (body : Z -> world -> outcome world unit) (to i : Z)
    (w : world) : outcome world unit by wf (Z.to_nat (i + 1 - to)) lt :=
  for_down body to i w with Z_le_gt_dec to i => {
    | left _ =>
        match body i w with
        | Returns _ w' => for_down body to (i - 1) w'
        | stopped => stopped
        end;
    | right _ => Returns tt w }.
Proof. lia. Qed.

(** The loop of [is_prime]: [for (T i = 3; i <= limit; i += 2)]. *)
Equations? odd_divisor_loop (number limit i : Z) : PrimeType.t
    by wf (Z.to_nat (limit + 1 - i)) lt :=
  odd_divisor_loop number limit i with Z_le_gt_dec i limit => {
    | left _ =>
        if (Z.rem number i =? 0)%Z then PrimeType.NotPrime
        else odd_divisor_loop number limit (i + 2);
    | right _ => PrimeType.Prime }.
Proof. lia. Qed.

(** [is_prime<int>].  [static_cast<int>(std::sqrt(number))] is the integer
    square root: the argument is converted to [double] exactly, the square
    root is correctly rounded, and truncating it gives the floor for every
    positive [int]. *)
Definition is_prime (number : Z) : exception + PrimeType.t :=
  if (number <=? 0)%Z then inl (invalid_argument "Number must be positive")
  else if (number =? 1)%Z then inr PrimeType.NotPrime
  else if (number =? 2)%Z || (number =? 3)%Z then inr PrimeType.Prime
  else if (Z.rem number 2 =? 0)%Z then inr PrimeType.NotPrime
  else
    let limit := Z.sqrt number in
    inr (odd_divisor_loop number limit 3).

(** [std::cout << prefix << i << suffix << std::endl] at [int]. *)
Definition print_number_line (prefix suffix : string) (i : Z) (w : world)
  : world :=
  print endl (print suffix (print (put_integer i) (print prefix w))).

Definition print_header (header : string) (w : world) : world :=
  if negb (is_empty header) then print endl (print header w) else w.

Definition print_range (n : Z) (header prefix suffix : string)
    (descending : bool) (w : world) : outcome world unit :=
  let w1 := print_header header w in
  let body := fun i w => Returns tt (print_number_line prefix suffix i w) in
  if descending then for_down body 1 n w1
  else for_up body n 1 w1.

Definition range_error : exception :=
  invalid_argument "End value must be greater than or equal to start value".

Definition print_prime_numbers (start end_ : Z) (header prefix suffix : string)
    (w : world) : outcome world unit :=
  let start := if (start <? 1)%Z then 1%Z else start in
  if (end_ <? start)%Z then Throws range_error w
  else
    let w1 := print_header header w in
    for_up
      (fun i w =>
         match is_prime i with
         | inl e => Throws e w
         | inr p =>
             if PrimeType.eqb p PrimeType.Prime
             then Returns tt (print_number_line prefix suffix i w)
             else Returns tt w
         end)
      end_ start w1.

(** [print_char_range<char>]: [char] is the signed eight-bit type, and
    [++c], [--c] convert the incremented [int] back to it. *)
Definition to_char (z : Z) : Z := ((z + 128) mod 256 - 128)%Z.
Definition CHAR_MIN : Z := (-128)%Z.
Definition CHAR_MAX : Z := 127%Z.

Definition char_byte (c : Z) : ascii := ascii_of_nat (Z.to_nat (c mod 256)).

Definition print_char_line (prefix suffix : string) (c : Z) (w : world)
  : world :=
  print endl
    (print suffix (print (String (char_byte c) EmptyString) (print prefix w))).

Fixpoint char_loop (step : Z) (test : Z -> bool) (prefix suffix : string)
    (fuel : nat) (c : Z) (w : world) : outcome world unit :=
  match fuel with
  | O => Spins w
  | S fuel' =>
      if test c
      then char_loop step test prefix suffix fuel' (to_char (c + step))
             (print_char_line prefix suffix c w)
      else Returns tt w
  end.

Definition print_char_range (start end_ : Z) (header prefix suffix : string)
    (descending : bool) (fuel : nat) (w : world) : outcome world unit :=
  let w1 := print_header header w in
  if descending
  then char_loop (-1) (fun c => (c >=? start)%Z) prefix suffix fuel end_ w1
  else char_loop 1 (fun c => (c <=? end_)%Z) prefix suffix fuel start w1.

(** *** io.cpp: [read_name] *)

(** [std::isalpha] in the "C" locale. *)
Definition isalpha (c : ascii) : bool :=
  let n := nat_of_ascii c in
  ((65 <=? n)%nat && (n <=? 90)%nat) || ((97 <=? n)%nat && (n <=? 122)%nat).

(** [std::all_of] over the characters of a string. *)
Fixpoint all_of (p : ascii -> bool) (s : string) : bool :=
  match s with
  | EmptyString => true
  | String c s' => p c && all_of p s'
  end.

Definition name_validator (name : string) : bool :=
  if is_empty name then false
  else all_of (fun c => isalpha c || isspace c || Ascii.eqb c "-"
                        || Ascii.eqb c "'") name.

Definition read_name (prompt : string) (fuel : nat) (w : world)
  : outcome world string :=
  read_value StdString prompt name_validator
    "Name should contain only letters, spaces, hyphens, and apostrophes."
    fuel w.

(** *** time_utils.h *)

Module time.

Record TaskDuration : Type := mk_TaskDuration {
  days : Z;
  hours : Z;
  minutes : Z;
  seconds : Z
}.

Definition set_days (d : Z) (t : TaskDuration) : TaskDuration :=
  mk_TaskDuration d (hours t) (minutes t) (seconds t).
Definition set_hours (h : Z) (t : TaskDuration) : TaskDuration :=
  mk_TaskDuration (days t) h (minutes t) (seconds t).
Definition set_minutes (m : Z) (t : TaskDuration) : TaskDuration :=
  mk_TaskDuration (days t) (hours t) m (seconds t).
Definition set_seconds (s : Z) (t : TaskDuration) : TaskDuration :=
  mk_TaskDuration (days t) (hours t) (minutes t) s.

Definition read_positive_int (prompt : string) (fuel : nat) (w : world)
  : outcome world Z :=
  read_number (ArInt int_type) (Some prompt) (Some 1%Z) (Some INT_MAX) fuel w.

Definition read_task_duration (fuel : nat) (w : world)
  : outcome world TaskDuration :=
  let duration := mk_TaskDuration 0 0 0 0 in
  bind (read_positive_int "Please Enter Number Of Days? " fuel w) (fun d w =>
  let duration := set_days d duration in
  bind (read_positive_int "Please Enter Number Of Hours? " fuel w) (fun h w =>
  let duration := set_hours h duration in
  bind (read_positive_int "Please Enter Number Of Minutes? " fuel w) (fun m w =>
  let duration := set_minutes m duration in
  bind (read_positive_int "Please Enter Number Of Seconds? " fuel w) (fun s w =>
  let duration := set_seconds s duration in
  Returns duration w)))).

End time.

(** *** auth.h *)

Module auth.

Record AuthResult : Type := mk_AuthResult {
  success : bool;
  message : string
}.

(** [size_t] arithmetic: [attempts++] is taken modulo 2^64. *)
Definition SIZE_MODULUS : N := (2 ^ 64)%N.
Definition incr (attempts : N) : N := ((attempts + 1) mod SIZE_MODULUS)%N.

Definition may_try (maxAttempts attempts : N) : bool :=
  (maxAttempts =? 0)%N || (attempts <? maxAttempts)%N.

Definition nonempty (input : string) : bool := negb (is_empty input).

Section authenticate_with_pin.
Context (correctPin prompt : string) (maxAttempts : N) (failureMsg : string).
Context (inner : nat).

(** The [while] loop; [outer] bounds its passes and [inner] those of each
    [read_value] it calls. *)
Fixpoint pin_loop (outer : nat) (attempts : N) (w : world)
  : outcome world AuthResult :=
  match outer with
  | O => Spins w
  | S outer' =>
      if may_try maxAttempts attempts then
        bind (read_value StdString prompt nonempty
                "Invalid PIN format. Please try again." inner w)
          (fun enteredPin w1 =>
             let attempts := incr attempts in
             if String.eqb enteredPin correctPin
             then Returns (mk_AuthResult true "Authentication successful") w1
             else
               let w2 := if may_try maxAttempts attempts
                         then print endl (print failureMsg w1) else w1 in
               pin_loop outer' attempts w2)
      else
        Returns
          (mk_AuthResult false "Maximum authentication attempts exceeded") w
  end.

Definition authenticate_with_pin (outer : nat) (w : world)
  : outcome world AuthResult :=
  pin_loop outer 0%N w.

End authenticate_with_pin.

Section authenticate_with_credentials.
Context (validator : string -> string -> bool)
        (usernamePrompt passwordPrompt : string) (maxAttempts : N)
        (failureMsg : string).
Context (inner : nat).

Fixpoint credentials_loop (outer : nat) (attempts : N) (w : world)
  : outcome world AuthResult :=
  match outer with
  | O => Spins w
  | S outer' =>
      if may_try maxAttempts attempts then
        bind (read_value StdString usernamePrompt nonempty
                "Username cannot be empty" inner w)
          (fun username w1 =>
        bind (read_value StdString passwordPrompt nonempty
                "Password cannot be empty" inner w1)
          (fun password w2 =>
             let attempts := incr attempts in
             if validator username password
             then Returns (mk_AuthResult true "Authentication successful") w2
             else
               let w3 := if may_try maxAttempts attempts
                         then print endl (print failureMsg w2) else w2 in
               credentials_loop outer' attempts w3))
      else
        Returns
          (mk_AuthResult false "Maximum authentication attempts exceeded") w
  end.

Definition authenticate_with_credentials (outer : nat) (w : world)
  : outcome world AuthResult :=
  credentials_loop outer 0%N w.

End authenticate_with_credentials.

(** The loop variables of [authenticate_with_pin] after [k] passes that each
    read a PIN different from the correct one: the attempt counter and the
    state, with the failure message written as the loop writes it.  [None]
    when the loop does not make [k] such passes. *)
Fixpoint after_wrong_pins (correctPin prompt : string) (maxAttempts : N)
    (failureMsg : string) (inner : nat) (k : nat) (attempts : N) (w : world)
  : option (N * world) :=
  match k with
  | O => Some (attempts, w)
  | S k' =>
      if may_try maxAttempts attempts then
        match read_value StdString prompt nonempty
                "Invalid PIN format. Please try again." inner w with
        | Returns enteredPin w1 =>
            if String.eqb enteredPin correctPin then None
            else
              let attempts := incr attempts in
              after_wrong_pins correctPin prompt maxAttempts failureMsg inner
                k' attempts
                (if may_try maxAttempts attempts
                 then print endl (print failureMsg w1) else w1)
        | _ => None
        end
      else None
  end.

(** The same for [authenticate_with_credentials]: [k] passes that each read
    a username and a password the validator refused. *)
Fixpoint after_refused_credentials (validator : string -> string -> bool)
    (usernamePrompt passwordPrompt : string) (maxAttempts : N)
    (failureMsg : string) (inner : nat) (k : nat) (attempts : N) (w : world)
  : option (N * world) :=
  match k with
  | O => Some (attempts, w)
  | S k' =>
      if may_try maxAttempts attempts then
        match read_value StdString usernamePrompt nonempty
                "Username cannot be empty" inner w with
        | Returns username w1 =>
            match read_value StdString passwordPrompt nonempty
                    "Password cannot be empty" inner w1 with
            | Returns password w2 =>
                if validator username password then None
                else
                  let attempts := incr attempts in
                  after_refused_credentials validator usernamePrompt
                    passwordPrompt maxAttempts failureMsg inner k' attempts
                    (if may_try maxAttempts attempts
                     then print endl (print failureMsg w2) else w2)
            | _ => None
            end
        | _ => None
        end
      else None
  end.

End auth.

(** The variable of the retry loop holds the empty string, when it is a
    string at all. *)
Definition empty_if_string (T : ctype) : cval T -> Prop :=
  match T with
  | StdString => fun value => value = EmptyString
  | _ => fun _ => True
  end.

(** The two messages a rejected attempt can print. *)
Definition rejection_message (T : ctype) (error_msg m : string) : Prop :=
  m = error_msg
  \/ m = "Error: Invalid " ++ InputValidator.type_name T ++ " format. "
         ++ error_msg.

(** The integers [from], [from + 1], ..., [to], in increasing order. *)
Definition interval (from to : Z) : list Z :=
  map (fun k => (from + Z.of_nat k)%Z) (seq 0 (Z.to_nat (to + 1 - from))).

Definition number_line (prefix suffix : string) (i : Z) : string :=
  prefix ++ put_integer i ++ suffix ++ endl.

Definition char_line (prefix suffix : string) (c : Z) : string :=
  prefix ++ String (char_byte c) EmptyString ++ suffix ++ endl.

End mylib.

(** ** Properties of the reader *)

Module reader_facts.
Import std mylib.

Section loop.
Context (T : ctype) (prompt : string) (validator : cval T -> bool)
        (error_msg : string).

Lemma loop_body_Done value w v w' :
  loop_body T prompt validator error_msg value w = Done v w' ->
  InputValidator.is_valid T v = true /\ validator v = true.
Proof.
  unfold loop_body.
  destruct (read_input T value (cin (print prompt w))) as [[s v1] failed].
  destruct failed; [discriminate|].
  destruct (InputValidator.is_valid T v1 && validator v1) eqn:E; [|discriminate].
  intros H; injection H as -> _.
  now apply andb_true_iff in E.
Qed.

Lemma read_value_loop_Returns fuel : forall value w v w',
  read_value_loop T prompt validator error_msg fuel value w = Returns v w' ->
  InputValidator.is_valid T v = true /\ validator v = true.
Proof.
  induction fuel as [|fuel IH]; intros value w v w'; simpl; [discriminate|].
  destruct (loop_body T prompt validator error_msg value w) as [v1 w1|v1 w1] eqn:E.
  - apply IH.
  - intros H; injection H as -> ->. eapply loop_body_Done; eassumption.
Qed.

Lemma read_value_loop_attempt n : forall value w v w' fuel,
  attempt T prompt validator error_msg n value w = Some (Done v w') ->
  n < fuel ->
  read_value_loop T prompt validator error_msg fuel value w = Returns v w'.
Proof.
  induction n as [|n IH]; intros value w v w' fuel; simpl.
  - intros H Hlt. destruct fuel as [|fuel]; [lia|]. simpl.
    injection H as ->. reflexivity.
  - intros H Hlt. destruct fuel as [|fuel]; [lia|]. simpl.
    destruct (loop_body T prompt validator error_msg value w) as [v1 w1|v1 w1];
      [|discriminate].
    apply IH; [assumption|lia].
Qed.

End loop.

Lemma read_value_loop_no_throw T prompt validator error_msg fuel :
  forall value w e w',
    read_value_loop T prompt validator error_msg fuel value w <> Throws e w'.
Proof.
  induction fuel as [|fuel IH]; intros value w e w'; simpl; [discriminate|].
  destruct (loop_body T prompt validator error_msg value w);
    [apply IH|discriminate].
Qed.

(** Two validators that agree on every value give the same run. *)
Lemma read_value_loop_ext T prompt (P Q : cval T -> bool) error_msg :
  (forall v, P v = Q v) ->
  forall fuel value w,
    read_value_loop T prompt P error_msg fuel value w
    = read_value_loop T prompt Q error_msg fuel value w.
Proof.
  intros HPQ. induction fuel as [|fuel IH]; intros value w; simpl; [reflexivity|].
  assert (Hbody : loop_body T prompt P error_msg value w
                  = loop_body T prompt Q error_msg value w).
  { unfold loop_body.
    destruct (read_input T value (cin (print prompt w))) as [[s v1] failed].
    now rewrite HPQ. }
  rewrite Hbody.
  destruct (loop_body T prompt Q error_msg value w); [apply IH|reflexivity].
Qed.

Lemma SFcompare_antisym a b :
  SFcompare b a = option_map CompOpp (SFcompare a b).
Proof.
  destruct a as [sa|sa| |sa ma ea], b as [sb|sb| |sb mb eb]; simpl;
    try reflexivity;
    try (destruct sa; reflexivity); try (destruct sb; reflexivity);
    try (destruct sa, sb; reflexivity).
  rewrite (Z.compare_antisym ea eb).
  change (Pos.compare_cont Eq mb ma) with (Pos.compare_cont (CompOpp Eq) mb ma).
  rewrite <- (Pos.compare_cont_antisym ma mb Eq).
  destruct sa, sb; simpl; try reflexivity;
    destruct (ea ?= eb)%Z; simpl; try reflexivity.
  all: now rewrite ?CompOpp_involutive.
Qed.

Lemma ge_le N (a b : cval (arith_type N)) : ge N a b = le N b a.
Proof.
  destruct N as [it|ft]; simpl in *.
  - apply Z.geb_leb.
  - unfold SFleb. rewrite (SFcompare_antisym a b).
    destruct (SFcompare a b) as [[]|]; reflexivity.
Qed.

(** C1: for every type, predicate and input, a value that [read_value]
    returns passes both the type's validity rule and the caller's predicate;
    and when the input supplies an acceptable value after any number [n] of
    rejected attempts, [read_value] does return, with exactly that value. *)
Theorem read_value_returns_only_accepted_values
    (T : ctype) (prompt : string) (P : cval T -> bool) (error_msg : string)
    (w : world) :
  (forall fuel v w',
      read_value T prompt P error_msg fuel w = Returns v w' ->
      InputValidator.is_valid T v = true /\ P v = true)
  /\ (forall n v w',
      attempt T prompt P error_msg n (value_init T) w = Some (Done v w') ->
      forall fuel, n < fuel ->
        read_value T prompt P error_msg fuel w = Returns v w'
        /\ InputValidator.is_valid T v = true /\ P v = true).
Proof.
  split.
  - intros fuel v w'. apply read_value_loop_Returns.
  - intros n v w' Hn fuel Hlt.
    assert (H : read_value T prompt P error_msg fuel w = Returns v w')
      by (now apply read_value_loop_attempt with (n := n)).
    split; [exact H|].
    eapply read_value_loop_Returns. exact H.
Qed.

(** Two rejected lines, then an accepted one. *)
Lemma read_value_returns_only_accepted_values_witness :
  read_value int "? " (fun v => (0 <? v)%Z) default_error_msg 5
    (stdin ("x" ++ endl ++ "-3" ++ endl ++ "42" ++ endl))
  = Returns 42%Z
      (mk_world (mk_istream "" false false)
         ("? Error: Invalid integer format. Invalid input. Please try again."
          ++ endl ++ "? Invalid input. Please try again." ++ endl ++ "? "))
  /\ InputValidator.is_valid int 42%Z = true /\ (0 <? 42)%Z = true.
Proof.
  apply (proj2 (read_value_returns_only_accepted_values
                  int "? " (fun v => (0 <? v)%Z) default_error_msg
                  (stdin ("x" ++ endl ++ "-3" ++ endl ++ "42" ++ endl)))
               2).
  - reflexivity.
  - lia.
Defined.

(** C2: the validity rule of each kind of type and its display name:
    integral types accept everything (so a plain [read_value<int>] returns
    -5), floating-point types accept exactly the values that are neither NaN
    nor infinite, [std::string] exactly the non-empty strings, and every other
    type accepts everything. *)
Theorem validity_rule_by_type :
  (forall it v, InputValidator.is_valid (Integral it) v = true)
  /\ (forall ft v, InputValidator.is_valid (FloatingPoint ft) v = true
                   <-> v <> S754_nan /\ (forall sign, v <> S754_infinity sign))
  /\ (forall s, InputValidator.is_valid StdString s = true <-> s <> EmptyString)
  /\ (forall ct v, InputValidator.is_valid (Class ct) v = true)
  /\ (forall it, InputValidator.type_name (Integral it) = "integer")
  /\ (forall ft, InputValidator.type_name (FloatingPoint ft) = "number")
  /\ InputValidator.type_name StdString = "text"
  /\ (forall ct, InputValidator.type_name (Class ct) = "value")
  /\ (forall prompt fuel rest,
        read_value int prompt (default_validator int) default_error_msg
          (S fuel) (stdin ("-5" ++ endl ++ rest))
        = Returns (-5)%Z (mk_world (mk_istream rest false false) prompt)).
Proof.
  repeat split; try reflexivity.
  - intros ->; discriminate.
  - intros sign ->; discriminate.
  - intros [Hnan Hinf]. destruct v; simpl; try reflexivity.
    + now elim (Hinf s).
    + now elim Hnan.
  - intros H ->; discriminate.
  - destruct s; [intros H; now elim H|reflexivity].
Qed.

(** C3: [read_number] is [read_value] with the predicate
    [min <= v <= max] and the message that embeds the two bounds; arguments
    left out are the type's lowest and greatest values; and on the inputs
    15, abc, 7 with bounds 1..10 it prints the range message for 15, the
    format message for abc, and returns 7. *)
Theorem read_number_is_read_value_in_range :
  (forall N prompt min_value max_value fuel w,
      read_number N (Some prompt) (Some min_value) (Some max_value) fuel w
      = read_value (arith_type N) prompt
          (within_bounds N min_value max_value)
          ("Please enter a number between " ++ insert _ min_value ++ " and "
             ++ insert _ max_value ++ ".") fuel w)
  /\ (forall N prompt fuel w,
      read_number N prompt None None fuel w
      = read_number N prompt (Some (numeric_limits_lowest N))
          (Some (numeric_limits_max N)) fuel w)
  /\ (numeric_limits_lowest (ArInt int_type) = (-2147483648)%Z
      /\ numeric_limits_max (ArInt int_type) = 2147483647%Z)
  /\ (forall fuel,
      read_number (ArInt int_type) (Some "Enter 1-10: ") (Some 1%Z) (Some 10%Z)
        (3 + fuel) (stdin ("15" ++ endl ++ "abc" ++ endl ++ "7" ++ endl))
      = Returns 7%Z
          (mk_world (mk_istream "" false false)
             ("Enter 1-10: Please enter a number between 1 and 10." ++ endl
              ++ "Enter 1-10: Error: Invalid integer format. "
              ++ "Please enter a number between 1 and 10." ++ endl
              ++ "Enter 1-10: "))).
Proof.
  split; [|split; [|split; [split|]]]; try reflexivity.
  intros N prompt min_value max_value fuel w.
  unfold read_number, read_value; simpl.
  apply read_value_loop_ext.
  intros v. unfold range_validator, within_bounds. now rewrite ge_le.
Qed.

Ltac run_token_attempt Hgood Hb Hget :=
  unfold loop_body, read_input, read_token, formatted_input; simpl;
  simpl in Hget; rewrite Hgood, Hb; simpl; rewrite Hget; simpl;
  unfold ignore, good, fail; simpl.

Lemma getline_line line : forall rest,
  has_newline line = false ->
  after_newline (line ++ endl ++ rest) = (rest, false)
  /\ before_newline (line ++ endl ++ rest) = line.
Proof.
  induction line as [|c line IH]; intros rest; simpl.
  - now split.
  - destruct (Ascii.eqb c newline); simpl; [discriminate|].
    intros H. destruct (IH rest H) as [Ha Hb]. simpl in Ha, Hb.
    rewrite Ha, Hb. now split.
Qed.

(** C8 (amended): on a good stream, an attempt at a numeric, char or other
    non-string type takes the value from the leading token and then discards
    the rest of that line; an attempt at the text type takes exactly one full
    line; a token that fails to parse has the remainder of its line
    discarded, the error naming the type is printed, and the loop goes on
    with the next attempt. *)
Theorem attempt_consumes_through_end_of_line :
  (forall T prompt validator error_msg value w ops c b v rest,
      good (cin w) = true ->
      token_stream T = Some ops ->
      skipws (rdbuf (cin w)) = String c b ->
      get_from ops (String c b) = mk_extraction (Some v) rest false false ->
      let s' := mk_istream (fst (after_newline rest))
                           (snd (after_newline rest)) false in
      loop_body T prompt validator error_msg value w
      = if InputValidator.is_valid T v && validator v
        then Done v (mk_world s' (cout w ++ prompt))
        else Again v (mk_world s' ((cout w ++ prompt) ++ error_msg ++ endl)))
  /\ (forall T prompt validator error_msg value w ops c b st rest eof,
      good (cin w) = true ->
      token_stream T = Some ops ->
      skipws (rdbuf (cin w)) = String c b ->
      get_from ops (String c b) = mk_extraction st rest eof true ->
      let w' := mk_world
                  (mk_istream (fst (after_newline rest))
                              (snd (after_newline rest)) false)
                  ((cout w ++ prompt) ++ "Error: Invalid "
                     ++ InputValidator.type_name T ++ " format. "
                     ++ error_msg ++ endl) in
      loop_body T prompt validator error_msg value w
      = Again (stored st value) w'
      /\ forall fuel,
          read_value_loop T prompt validator error_msg (S fuel) value w
          = read_value_loop T prompt validator error_msg fuel
              (stored st value) w')
  /\ (forall prompt validator error_msg value w line rest,
      good (cin w) = true ->
      rdbuf (cin w) = line ++ endl ++ rest ->
      has_newline line = false ->
      let s' := mk_istream rest false false in
      loop_body StdString prompt validator error_msg value w
      = if InputValidator.is_valid StdString line && validator line
        then Done (T := StdString) line (mk_world s' (cout w ++ prompt))
        else Again (T := StdString) line
               (mk_world s' ((cout w ++ prompt) ++ error_msg ++ endl))).
Proof.
  split; [|split].
  - intros T prompt validator error_msg value w ops c b v rest
           Hgood Hops Hb Hget s'.
    destruct T as [it|ft| |ct]; simpl in Hops; try discriminate;
      injection Hops as <-;
      run_token_attempt Hgood Hb Hget;
      destruct (after_newline rest) as [r e]; reflexivity.
  - intros T prompt validator error_msg value w ops c b st rest eof
           Hgood Hops Hb Hget w'.
    assert (Hbody : loop_body T prompt validator error_msg value w
                    = Again (stored st value) w').
    { subst w'.
      destruct T as [it|ft| |ct]; simpl in Hops; try discriminate;
        injection Hops as <-;
        run_token_attempt Hgood Hb Hget;
        rewrite andb_false_r; simpl;
        destruct (after_newline rest) as [r e]; reflexivity. }
    split; [exact Hbody|].
    intros fuel. simpl. now rewrite Hbody.
  - intros prompt validator error_msg value w line rest Hgood Hbuf Hline s'.
    unfold loop_body, read_input, getline; simpl.
    rewrite Hgood, Hbuf.
    destruct (getline_line line rest Hline) as [Ha Hb].
    destruct (line ++ endl ++ rest) as [|c0 b0] eqn:E.
    + destruct line; discriminate.
    + simpl in Ha, Hb. rewrite Ha, Hb. reflexivity.
Qed.

(** A line with two numbers, a line that is no number, and a line of text. *)
Lemma attempt_consumes_through_end_of_line_witness :
  loop_body int "? " (default_validator int) "Again." 0%Z
    (stdin ("7 8" ++ endl ++ "9" ++ endl))
  = Done (T := int) 7%Z (mk_world (mk_istream ("9" ++ endl) false false) "? ")
  /\ loop_body int "? " (default_validator int) "Again." 5%Z
       (stdin ("abc def" ++ endl ++ "9" ++ endl))
     = Again (T := int) 0%Z (mk_world (mk_istream ("9" ++ endl) false false)
                    ("? Error: Invalid integer format. Again." ++ endl))
  /\ loop_body StdString "? " (default_validator StdString) "Again." ""
       (stdin ("Ada Lovelace" ++ endl ++ "9" ++ endl))
     = Done (T := StdString) "Ada Lovelace"
         (mk_world (mk_istream ("9" ++ endl) false false) "? ").
Proof.
  destruct attempt_consumes_through_end_of_line as [Hok [Hbad Htext]].
  split; [|split].
  - apply (Hok int "? " (default_validator int) "Again." 0%Z
               (stdin ("7 8" ++ endl ++ "9" ++ endl)) int_ops
               "7"%char (" 8" ++ endl ++ "9" ++ endl) 7%Z
               (" 8" ++ endl ++ "9" ++ endl));
      reflexivity.
  - apply (Hbad int "? " (default_validator int) "Again." 5%Z
               (stdin ("abc def" ++ endl ++ "9" ++ endl)) int_ops
               "a"%char ("bc def" ++ endl ++ "9" ++ endl) (Some 0%Z)
               ("abc def" ++ endl ++ "9" ++ endl) false);
      reflexivity.
  - apply (Htext "? " (default_validator StdString) "Again." ""
               (stdin ("Ada Lovelace" ++ endl ++ "9" ++ endl))
               "Ada Lovelace" ("9" ++ endl));
      reflexivity.
Defined.

(** C8 as stated fails: the attempt that reads 7 from the line "7 8" leaves
    nothing of that line, while taking exactly one token would leave " 8". *)
Lemma attempt_takes_more_than_one_token :
  let w := stdin ("7 8" ++ endl) in
  exists v w',
    loop_body int "? " (default_validator int) default_error_msg 0%Z w
    = Done v w'
    /\ rdbuf (cin w') = EmptyString
    /\ after_first_token (rdbuf (cin w)) = " 8" ++ endl
    /\ rdbuf (cin w') <> after_first_token (rdbuf (cin w)).
Proof.
  exists 7%Z, (mk_world (mk_istream "" false false) "? ").
  repeat split; discriminate.
Qed.

End reader_facts.

(** ** Properties of the container *)

Module container_facts.
Import std mylib.

Lemma append_assoc (a b c : string) : (a ++ b) ++ c = a ++ b ++ c.
Proof. induction a as [|x a IH]; simpl; [reflexivity|now rewrite IH]. Qed.

Lemma print_print a b w : print b (print a w) = print (a ++ b) w.
Proof. unfold print; simpl. now rewrite append_assoc. Qed.

Lemma index_value_lt Fields : forall i : Index Fields,
  index_value i < List.length Fields.
Proof.
  induction Fields as [|T Ts IH]; intros i; [destruct i|].
  destruct i as [j|]; simpl; [specialize (IH j)|]; lia.
Qed.

Lemma make_index_sequence_values Fields :
  map index_value (make_index_sequence Fields) = seq 0 (List.length Fields).
Proof.
  induction Fields as [|T Ts IH]; simpl; [reflexivity|].
  f_equal. rewrite map_map. simpl.
  rewrite <- seq_shift, <- IH, map_map. reflexivity.
Qed.

Lemma make_index_sequence_NoDup Fields : NoDup (make_index_sequence Fields).
Proof.
  apply (NoDup_map_inv index_value).
  rewrite make_index_sequence_values. apply seq_NoDup.
Qed.

Lemma get_assign_same Fields : forall (i : Index Fields) v t,
  get i (assign i v t) = v.
Proof.
  induction Fields as [|T Ts IH]; intros i; [destruct i|].
  destruct i as [j|]; intros v t; simpl; [apply IH|reflexivity].
Qed.

Lemma get_assign_other Fields : forall (i j : Index Fields) v t,
  i <> j -> get j (assign i v t) = get j t.
Proof.
  induction Fields as [|T Ts IH]; intros i; [destruct i|].
  destruct i as [i|], j as [j|]; intros v t Hne; simpl; try reflexivity.
  - apply IH. congruence.
  - now elim Hne.
Qed.

Lemma get_tuple_init Fields : forall i : Index Fields,
  get i (tuple_init Fields) = value_init (tuple_element_t i).
Proof.
  induction Fields as [|T Ts IH]; intros i; [destruct i|].
  destruct i as [j|]; simpl; [apply IH|reflexivity].
Qed.

Section invariant.
Context {Fields : list ctype}.
Implicit Types (c : DataContainer Fields) (i : Index Fields).

Lemma construct_inr names c :
  construct names = inr c ->
  c = mk_DataContainer (tuple_init Fields) names
  /\ List.length names = List.length Fields.
Proof.
  unfold construct.
  destruct (List.length names =? List.length Fields)%nat eqn:E; simpl;
    [|discriminate].
  intros H; injection H as <-. split; [reflexivity|].
  now apply Nat.eqb_eq.
Qed.

Lemma field_names_apply_updates us : forall c,
  field_names (apply_updates us c) = field_names c.
Proof.
  unfold apply_updates.
  induction us as [|u us IH]; intros c; cbn [fold_left]; [reflexivity|].
  now rewrite IH.
Qed.

Lemma get_field_name_in_range c i :
  List.length (field_names c) = List.length Fields ->
  get_field_name (index_value i) c
  = inr (nth (index_value i) (field_names c) EmptyString).
Proof.
  intros Hlen. unfold get_field_name. rewrite Hlen.
  pose proof (index_value_lt Fields i) as Hlt.
  destruct (Nat.leb_spec (List.length Fields) (index_value i)); [lia|reflexivity].
Qed.

End invariant.

(** C5: the constructor throws [std::invalid_argument] whenever the number
    of names differs from the number of fields, and succeeds, keeping the
    names, whenever the two agree. *)
Theorem construct_checks_arity (Fields : list ctype) (names : list string) :
  (List.length names <> List.length Fields ->
   construct (Fields := Fields) names
   = inl (invalid_argument
            "Number of field names must match number of fields"))
  /\ (List.length names = List.length Fields ->
      exists c : DataContainer Fields,
        construct names = inr c /\ field_names c = names).
Proof.
  unfold construct. split; intros H.
  - apply Nat.eqb_neq in H. now rewrite H.
  - apply Nat.eqb_eq in H. rewrite H. simpl. eexists; split; reflexivity.
Qed.

Lemma construct_checks_arity_witness :
  construct (Fields := [int; StdString]) ["Age"]
  = inl (invalid_argument "Number of field names must match number of fields")
  /\ exists c : DataContainer [int; StdString],
       construct ["Age"; "Name"] = inr c /\ field_names c = ["Age"; "Name"].
Proof.
  split.
  - apply (proj1 (construct_checks_arity [int; StdString] ["Age"])).
    simpl; lia.
  - apply (proj2 (construct_checks_arity [int; StdString] ["Age"; "Name"])).
    reflexivity.
Defined.

(** C6: on a constructed container, after any sequence of [set_field]
    calls, [get_field_name(i)] throws [std::out_of_range] when [i >= size()]
    and otherwise returns the name given to the constructor for position [i];
    the calls to [set_field] do not change its result. *)
Theorem get_field_name_checked (Fields : list ctype) (names : list string)
    (c : DataContainer Fields) (us : list (update Fields)) (index : nat) :
  construct names = inr c ->
  (size (apply_updates us c) <= index ->
   get_field_name index (apply_updates us c)
   = inl (out_of_range "Field index out of range"))
  /\ (index < size (apply_updates us c) ->
      exists name, nth_error names index = Some name
                   /\ get_field_name index (apply_updates us c) = inr name)
  /\ get_field_name index (apply_updates us c) = get_field_name index c.
Proof.
  intros Hc. apply construct_inr in Hc. destruct Hc as [-> Hlen].
  unfold get_field_name, size.
  rewrite field_names_apply_updates. simpl. rewrite Hlen.
  split; [|split].
  - intros H. now destruct (Nat.leb_spec (List.length Fields) index); [|lia].
  - intros H. destruct (Nat.leb_spec (List.length Fields) index); [lia|].
    exists (nth index names EmptyString). split; [|reflexivity].
    apply nth_error_nth'. lia.
  - reflexivity.
Qed.

Lemma get_field_name_checked_witness :
  let us : list (update [int; StdString]) :=
    [existT _ None (-5)%Z; existT _ (Some None) "Alice"] in
  exists c : DataContainer [int; StdString],
    construct ["Age"; "Name"] = inr c
    /\ get_field_name 2 (apply_updates us c)
       = inl (out_of_range "Field index out of range")
    /\ (exists name, nth_error ["Age"; "Name"] 1 = Some name
                     /\ get_field_name 1 (apply_updates us c) = inr name)
    /\ get_field_name 1 (apply_updates us c) = get_field_name 1 c.
Proof.
  intros us.
  exists (mk_DataContainer (Fields := [int; StdString])
            (tuple_init [int; StdString]) ["Age"; "Name"]).
  split; [reflexivity|].
  split; [|split].
  - apply (proj1 (get_field_name_checked [int; StdString] ["Age"; "Name"]
                    _ us 2 eq_refl)).
    unfold size; simpl; lia.
  - apply (proj1 (proj2 (get_field_name_checked [int; StdString]
                           ["Age"; "Name"] _ us 1 eq_refl))).
    unfold size; simpl; lia.
  - apply (proj2 (proj2 (get_field_name_checked [int; StdString]
                           ["Age"; "Name"] _ us 1 eq_refl))).
Defined.

(** C7: [get_field<i>] is a total function, so it cannot fail; right after
    construction it returns the value-initialised value of the field's type,
    and after [set_field<i>(v)] it returns [v], for every [v]. *)
Theorem get_field_returns_stored_value (Fields : list ctype) (i : Index Fields) :
  (forall names (c : DataContainer Fields),
      construct names = inr c ->
      get_field i c = value_init (tuple_element_t i))
  /\ (forall (c : DataContainer Fields) v, get_field i (set_field i v c) = v).
Proof.
  split.
  - intros names c Hc. apply construct_inr in Hc. destruct Hc as [-> _].
    apply get_tuple_init.
  - intros c v. apply get_assign_same.
Qed.

Lemma get_field_returns_stored_value_witness :
  exists c : DataContainer [int; StdString],
    construct ["Age"; "Name"] = inr c
    /\ get_field (None : Index [int; StdString]) c = 0%Z
    /\ get_field (Some None : Index [int; StdString]) c = EmptyString
    /\ get_field (None : Index [int; StdString])
         (set_field (None : Index [int; StdString]) INT_MIN c) = INT_MIN
    /\ get_field (Some None : Index [int; StdString])
         (set_field (Some None : Index [int; StdString]) EmptyString
            (set_field (Some None : Index [int; StdString]) "Alice" c))
       = EmptyString.
Proof.
  exists (mk_DataContainer (Fields := [int; StdString])
            (tuple_init [int; StdString]) ["Age"; "Name"]).
  split; [reflexivity|].
  split; [|split; [|split]].
  - apply (proj1 (get_field_returns_stored_value [int; StdString] None)
             ["Age"; "Name"]).
    reflexivity.
  - apply (proj1 (get_field_returns_stored_value [int; StdString] (Some None))
             ["Age"; "Name"]).
    reflexivity.
  - apply (proj2 (get_field_returns_stored_value [int; StdString] None)).
  - apply (proj2 (get_field_returns_stored_value [int; StdString] (Some None))).
Defined.

(** *** Bulk print *)

Lemma append_nil_r (a : string) : a ++ EmptyString = a.
Proof. induction a as [|x a IH]; simpl; [reflexivity|now rewrite IH]. Qed.

Lemma print_nothing w : print EmptyString w = w.
Proof. destruct w; unfold print; simpl. now rewrite append_nil_r. Qed.

Lemma print_field_line Fields (c : DataContainer Fields) i w :
  List.length (field_names c) = List.length Fields ->
  print_field c i w = Returns tt (print (field_line (field_names c) c i) w).
Proof.
  intros Hlen. unfold print_field, field_line.
  rewrite (get_field_name_in_range c i Hlen).
  now rewrite !print_print, ?append_assoc.
Qed.

Lemma print_helper_lines Fields (c : DataContainer Fields) :
  List.length (field_names c) = List.length Fields ->
  forall indices w,
    print_data_container_helper c indices w
    = Returns tt (print (lines (map (field_line (field_names c) c) indices)) w).
Proof.
  intros Hlen. unfold print_data_container_helper.
  induction indices as [|i rest IH]; intros w; simpl.
  - now rewrite print_nothing.
  - rewrite (print_field_line Fields c i w Hlen), IH. now rewrite print_print.
Qed.

Lemma print_data_container_output Fields names (c0 : DataContainer Fields)
    us header w :
  construct names = inr c0 ->
  print_data_container (apply_updates us c0) header w
  = Returns tt
      (print ((if is_empty header then EmptyString else header ++ endl)
              ++ lines (map (field_line names (apply_updates us c0))
                            (make_index_sequence Fields))) w).
Proof.
  intros Hc.
  apply construct_inr in Hc. destruct Hc as [-> Hlen].
  unfold print_data_container.
  rewrite print_helper_lines
    by (rewrite field_names_apply_updates; exact Hlen).
  rewrite field_names_apply_updates. simpl field_names.
  destruct header as [|h header]; cbn [is_empty negb].
  - reflexivity.
  - now rewrite !print_print, ?append_assoc.
Qed.

(** C9: [print_data_container] writes the header and a newline when the
    header is not empty, then one line "name: value" per field in declared
    order; for the fields X = 1 and Y = 2 under the header "Report" the
    output is the three lines Report, X: 1, Y: 2. *)
Theorem print_data_container_lines :
  (forall Fields names (c0 : DataContainer Fields) us header w,
      construct names = inr c0 ->
      print_data_container (apply_updates us c0) header w
      = Returns tt
          (print ((if is_empty header then EmptyString else header ++ endl)
                  ++ lines (map (field_line names (apply_updates us c0))
                                (make_index_sequence Fields))) w))
  /\ (forall w,
      exists c0 : DataContainer [int; int],
        construct ["X"; "Y"] = inr c0
        /\ print_data_container
             (set_field (Some None : Index [int; int]) 2%Z
                (set_field (None : Index [int; int]) 1%Z c0)) "Report" w
           = Returns tt
               (print ("Report" ++ endl ++ "X: 1" ++ endl ++ "Y: 2" ++ endl) w)).
Proof.
  split; [exact print_data_container_output|].
  intros w.
  exists (mk_DataContainer (Fields := [int; int]) (tuple_init [int; int]) ["X"; "Y"]).
  split; [reflexivity|].
  apply (print_data_container_output [int; int] ["X"; "Y"] _
           [existT _ (None : Index [int; int]) 1%Z;
            existT _ (Some None : Index [int; int]) 2%Z] "Report" w).
  reflexivity.
Qed.

(** Without a header, only the field lines are written. *)
Lemma print_data_container_lines_witness :
  print_data_container
    (apply_updates [existT _ (Some None : Index [int; StdString]) "Alice"]
       (mk_DataContainer (Fields := [int; StdString])
          (tuple_init [int; StdString]) ["Age"; "Name"]))
    EmptyString (stdin "")
  = Returns tt (print ("Age: 0" ++ endl ++ "Name: Alice" ++ endl) (stdin "")).
Proof.
  apply (proj1 print_data_container_lines [int; StdString] ["Age"; "Name"]
           (mk_DataContainer (tuple_init [int; StdString]) ["Age"; "Name"])
           [existT _ (Some None : Index [int; StdString]) "Alice"]
           EmptyString (stdin "")).
  reflexivity.
Defined.

(** *** Bulk populate *)

Lemma comma_fold_app {St Ix} (f : Ix -> St -> outcome St unit) l1 : forall l2 s,
  comma_fold f (l1 ++ l2) s
  = match comma_fold f l1 s with
    | Returns _ s' => comma_fold f l2 s'
    | stopped => stopped
    end.
Proof.
  induction l1 as [|i l1 IH]; intros l2 s; simpl; [reflexivity|].
  destruct (f i s) as [[] s'|e s'|s']; [apply IH|reflexivity|reflexivity].
Qed.

Section populate.
Context {Fields : list ctype}.
Implicit Types (c : DataContainer Fields) (i : Index Fields).

Lemma read_and_set_field_steps fuel i c w :
  List.length (field_names c) = List.length Fields ->
  read_and_set_field fuel i (c, w)
  = match read_value (tuple_element_t i)
            ("Enter " ++ nth (index_value i) (field_names c) EmptyString ++ ": ")
            (fun _ => true) "Invalid input. Please try again." fuel w with
    | Returns v w' => Returns tt (set_field i v c, w')
    | Throws e w' => Throws e (c, w')
    | Spins w' => Spins (c, w')
    end.
Proof.
  intros Hlen. unfold read_and_set_field.
  now rewrite (get_field_name_in_range c i Hlen).
Qed.

(** One field read leaves the names and every other slot as they were,
    however it ends. *)
Lemma read_and_set_field_frame fuel i c w :
  let s' := final_state (read_and_set_field fuel i (c, w)) in
  field_names (fst s') = field_names c
  /\ forall j, i <> j -> get_field j (fst s') = get_field j c.
Proof.
  unfold read_and_set_field.
  destruct (get_field_name (index_value i) c) as [e|name]; simpl;
    [now split|].
  match goal with
  | |- context [read_value ?T ?p ?P ?m ?f ?x] =>
      destruct (read_value T p P m f x) as [v w'|e w'|w']
  end; simpl; try now split.
  split; [reflexivity|].
  intros j Hne. unfold get_field, set_field. simpl.
  now apply get_assign_other.
Qed.

Lemma helper_frame fuel indices : forall c w,
  let s' := final_state (read_data_container_helper fuel indices (c, w)) in
  field_names (fst s') = field_names c
  /\ forall j, ~ In j indices -> get_field j (fst s') = get_field j c.
Proof.
  unfold read_data_container_helper.
  induction indices as [|i rest IH]; intros c w; cbv zeta;
    cbn [comma_fold In]; [now split|].
  pose proof (read_and_set_field_frame fuel i c w) as Hstep.
  destruct (read_and_set_field fuel i (c, w)) as [[] [c1 w1]|e s1|s1];
    simpl in Hstep; destruct Hstep as [Hnames Hslots]; cbv zeta iota.
  - destruct (IH c1 w1) as [Hn Hs]. split.
    + now rewrite Hn.
    + intros j Hj. rewrite Hs by tauto. apply Hslots. tauto.
  - simpl. split; [exact Hnames|]. intros j Hj. apply Hslots. tauto.
  - simpl. split; [exact Hnames|]. intros j Hj. apply Hslots. tauto.
Qed.

Lemma helper_no_throw fuel indices : forall c w e s,
  List.length (field_names c) = List.length Fields ->
  read_data_container_helper fuel indices (c, w) <> Throws e s.
Proof.
  unfold read_data_container_helper.
  induction indices as [|i rest IH]; intros c w e s Hlen;
    cbn [comma_fold]; [discriminate|].
  rewrite (read_and_set_field_steps fuel i c w Hlen).
  pose proof (reader_facts.read_value_loop_no_throw (tuple_element_t i)
                ("Enter " ++ nth (index_value i) (field_names c) EmptyString ++ ": ")
                (fun _ => true) "Invalid input. Please try again." fuel
                (value_init _) w) as Hrv.
  fold (read_value (tuple_element_t i)
          ("Enter " ++ nth (index_value i) (field_names c) EmptyString ++ ": ")
          (fun _ => true) "Invalid input. Please try again." fuel w) in Hrv.
  destruct (read_value (tuple_element_t i)
          ("Enter " ++ nth (index_value i) (field_names c) EmptyString ++ ": ")
          (fun _ => true) "Invalid input. Please try again." fuel w)
    as [v w'|e' w'|w'].
  - apply IH. exact Hlen.
  - now elim (Hrv e' w').
  - discriminate.
Qed.

End populate.

Lemma In_make_index_sequence Fields : forall i : Index Fields,
  In i (make_index_sequence Fields).
Proof.
  induction Fields as [|T Ts IH]; intros i; [destruct i|].
  destruct i as [j|]; simpl; [right; now apply in_map|now left].
Qed.

Section populate_run.
Context {Fields : list ctype}.
Implicit Types (c : DataContainer Fields) (i : Index Fields).

(** A field read at its turn is in its slot when the run ends, however the
    run ends. *)
Lemma helper_keeps_read_value fuel c w before i after c1 w1 v w2 :
  List.length (field_names c) = List.length Fields ->
  NoDup (before ++ i :: after) ->
  read_data_container_helper fuel before (c, w) = Returns tt (c1, w1) ->
  read_value (tuple_element_t i)
    ("Enter " ++ nth (index_value i) (field_names c) EmptyString ++ ": ")
    (fun _ => true) "Invalid input. Please try again." fuel w1
  = Returns v w2 ->
  get_field i
    (fst (final_state
            (read_data_container_helper fuel (before ++ i :: after) (c, w))))
  = v.
Proof.
  intros Hc Hnodup Hbefore Hread.
  apply NoDup_remove_2 in Hnodup.
  pose proof (helper_frame fuel before c w) as Hpre.
  rewrite Hbefore in Hpre. simpl in Hpre. destruct Hpre as [Hn1 _].
  unfold read_data_container_helper in *.
  rewrite comma_fold_app, Hbefore. cbn [comma_fold].
  rewrite read_and_set_field_steps by (now rewrite Hn1).
  rewrite Hn1, Hread.
  destruct (helper_frame fuel after (set_field i v c1) w2) as [_ Hs].
  unfold read_data_container_helper in Hs.
  rewrite Hs by (intros Hin; apply Hnodup, in_or_app; now right).
  apply get_assign_same.
Qed.

(** When the whole run returns, every field had its turn: the fields before
    it were read, then [read_value] returned the value now in its slot. *)
Lemma helper_Returns_every_field fuel c w c' w' i :
  List.length (field_names c) = List.length Fields ->
  read_data_container_helper fuel (make_index_sequence Fields) (c, w)
  = Returns tt (c', w') ->
  exists before after c1 w1 w2,
    make_index_sequence Fields = (before ++ i :: after)%list
    /\ read_data_container_helper fuel before (c, w) = Returns tt (c1, w1)
    /\ read_value (tuple_element_t i)
         ("Enter " ++ nth (index_value i) (field_names c) EmptyString ++ ": ")
         (fun _ => true) "Invalid input. Please try again." fuel w1
       = Returns (get_field i c') w2.
Proof.
  intros Hc Hrun.
  destruct (in_split i (make_index_sequence Fields) (In_make_index_sequence Fields i))
    as [before [after Hsplit]].
  pose proof (make_index_sequence_NoDup Fields) as Hnodup.
  rewrite Hsplit in Hnodup.
  pose proof Hrun as Hwhole.
  unfold read_data_container_helper in Hrun.
  rewrite Hsplit, comma_fold_app in Hrun.
  destruct (comma_fold (read_and_set_field fuel) before (c, w))
    as [[] [c1 w1]|e s1|s1] eqn:Ebefore; try discriminate.
  pose proof (helper_frame fuel before c w) as Hpre.
  unfold read_data_container_helper in Hpre.
  rewrite Ebefore in Hpre. simpl in Hpre. destruct Hpre as [Hn1 _].
  cbn [comma_fold] in Hrun.
  rewrite read_and_set_field_steps in Hrun by (now rewrite Hn1).
  rewrite Hn1 in Hrun.
  destruct (read_value (tuple_element_t i)
              ("Enter " ++ nth (index_value i) (field_names c) EmptyString ++ ": ")
              (fun _ => true) "Invalid input. Please try again." fuel w1)
    as [v w2|e w2|w2] eqn:Eread; try discriminate.
  exists before, after, c1, w1, w2.
  split; [exact Hsplit|]. split; [exact Ebefore|].
  pose proof (helper_keeps_read_value fuel c w before i after c1 w1 v w2
                Hc Hnodup Ebefore Eread) as Hkept.
  rewrite <- Hsplit, Hwhole in Hkept. simpl in Hkept.
  now rewrite Hkept.
Qed.

End populate_run.

(** C4: the bulk populate, [read_data_container] through
    [read_data_container_helper], walks the positions 0 .. arity-1 in order;
    at position [i] it prompts with "Enter <name of i>: ", reads with
    [read_value] at the field's type under the always-true predicate, and
    stores the result with [set_field<i>]; a field that was read keeps its
    value to the end of the run, also when a later read does not come back;
    and when [read_data_container] returns, every field of the container it
    returns holds the value [read_value] returned at that field's turn. *)
Theorem populate_reads_fields_in_declared_order
    (Fields : list ctype) (names : list string) (c0 : DataContainer Fields)
    (us : list (update Fields)) :
  construct names = inr c0 ->
  let c := apply_updates us c0 in
  map index_value (make_index_sequence Fields) = seq 0 (List.length Fields)
  /\ (forall fuel i w,
        read_and_set_field fuel i (c, w)
        = match read_value (tuple_element_t i)
                  ("Enter " ++ nth (index_value i) names EmptyString ++ ": ")
                  (fun _ => true) "Invalid input. Please try again." fuel w with
          | Returns v w' => Returns tt (set_field i v c, w')
          | Throws e w' => Throws e (c, w')
          | Spins w' => Spins (c, w')
          end)
  /\ (forall fuel w before i after c1 w1 v w2,
        make_index_sequence Fields = (before ++ i :: after)%list ->
        read_data_container_helper fuel before (c, w) = Returns tt (c1, w1) ->
        read_value (tuple_element_t i)
          ("Enter " ++ nth (index_value i) names EmptyString ++ ": ")
          (fun _ => true) "Invalid input. Please try again." fuel w1
        = Returns v w2 ->
        get_field i
          (fst (final_state
                  (read_data_container_helper fuel (make_index_sequence Fields)
                     (c, w))))
        = v)
  /\ (forall fuel w,
        read_data_container names fuel w
        = match read_data_container_helper fuel (make_index_sequence Fields)
                  (c0, w) with
          | Returns _ (c', w') => Returns c' w'
          | Throws e (_, w') => Throws e w'
          | Spins (_, w') => Spins w'
          end)
  /\ (forall fuel w c' w',
        read_data_container names fuel w = Returns c' w' ->
        field_names c' = names
        /\ forall i,
             exists before after c1 w1 w2,
               make_index_sequence Fields = (before ++ i :: after)%list
               /\ read_data_container_helper fuel before (c0, w)
                  = Returns tt (c1, w1)
               /\ read_value (tuple_element_t i)
                    ("Enter " ++ nth (index_value i) names EmptyString ++ ": ")
                    (fun _ => true) "Invalid input. Please try again." fuel w1
                  = Returns (get_field i c') w2).
Proof.
  intros Hc c. pose proof Hc as Hconstruct.
  apply construct_inr in Hc. destruct Hc as [Hc0 Hlen].
  assert (Hnames0 : field_names c0 = names) by (now rewrite Hc0).
  assert (Hnames : field_names c = names)
    by (unfold c; now rewrite field_names_apply_updates).
  assert (Hc : List.length (field_names c) = List.length Fields)
    by now rewrite Hnames.
  assert (Hentry : forall fuel w,
             read_data_container names fuel w
             = match read_data_container_helper fuel
                       (make_index_sequence Fields) (c0, w) with
               | Returns _ (c', w') => Returns c' w'
               | Throws e (_, w') => Throws e w'
               | Spins (_, w') => Spins w'
               end).
  { intros fuel w. unfold read_data_container. now rewrite Hconstruct. }
  split; [apply make_index_sequence_values|].
  split; [|split; [|split]].
  - intros fuel i w. rewrite <- Hnames.
    now apply read_and_set_field_steps.
  - intros fuel w before i after c1 w1 v w2 Hsplit Hbefore Hread.
    pose proof (make_index_sequence_NoDup Fields) as Hnodup.
    rewrite Hsplit in Hnodup |- *.
    apply (helper_keeps_read_value fuel c w before i after c1 w1 v w2);
      try assumption.
    now rewrite Hnames.
  - exact Hentry.
  - intros fuel w c' w' Hrun. rewrite Hentry in Hrun.
    destruct (read_data_container_helper fuel (make_index_sequence Fields)
                (c0, w)) as [[] [c2 w2]|e [c2 w2]|[c2 w2]] eqn:E;
      try discriminate.
    injection Hrun as -> ->.
    pose proof (helper_frame fuel (make_index_sequence Fields) c0 w) as Hframe.
    rewrite E in Hframe. simpl in Hframe. destruct Hframe as [Hn _].
    split; [now rewrite Hn|].
    intros i. rewrite <- Hnames0.
    apply (helper_Returns_every_field fuel c0 w c' w' i); [|exact E].
    now rewrite Hnames0.
Qed.

(** The age is read, then the input ends while the name is awaited: the run
    does not come back, and the age is in its slot.  With both lines there,
    [read_data_container] returns the two values under the two prompts. *)
Lemma populate_reads_fields_in_declared_order_witness :
  let c : DataContainer [int; StdString] :=
    mk_DataContainer (tuple_init [int; StdString]) ["Age"; "Name"] in
  let w := stdin ("-5" ++ endl) in
  read_data_container_helper 4 (make_index_sequence [int; StdString]) (c, w)
  = Spins (set_field (None : Index [int; StdString]) (-5)%Z c,
           mk_world (mk_istream "" true true)
             ("Enter Age: Enter Name: Invalid input. Please try again." ++ endl
              ++ "Enter Name: Invalid input. Please try again." ++ endl
              ++ "Enter Name: Invalid input. Please try again." ++ endl
              ++ "Enter Name: Invalid input. Please try again." ++ endl))
  /\ get_field (None : Index [int; StdString])
       (fst (final_state
               (read_data_container_helper 4
                  (make_index_sequence [int; StdString]) (c, w))))
     = (-5)%Z
  /\ read_data_container (Fields := [int; StdString]) ["Age"; "Name"] 4
       (stdin ("-5" ++ endl ++ "Alice" ++ endl))
     = Returns
         (mk_DataContainer (Fields := [int; StdString])
            ((-5)%Z, ("Alice", tt)) ["Age"; "Name"])
         (mk_world (mk_istream "" false false) "Enter Age: Enter Name: ").
Proof.
  intros c w.
  pose proof (populate_reads_fields_in_declared_order
                [int; StdString] ["Age"; "Name"] c [] eq_refl)
    as [_ [_ [Hkept [Hentry _]]]].
  split; [reflexivity|]. split.
  - apply (Hkept 4 w [] None [Some None] c w (-5)%Z
             (mk_world (mk_istream "" false false) "Enter Age: "));
      reflexivity.
  - rewrite (Hentry 4 (stdin ("-5" ++ endl ++ "Alice" ++ endl))).
    reflexivity.
Defined.

(** C10: on a constructed container every index the bulk operations hand to
    [get_field_name] is below [size()], so neither the bulk populate nor the
    bulk print ever throws: the populate returns or keeps waiting for input,
    and the print returns. *)
Theorem bulk_operations_stay_in_range
    (Fields : list ctype) (names : list string) (c0 : DataContainer Fields)
    (us : list (update Fields)) :
  construct names = inr c0 ->
  let c := apply_updates us c0 in
  (forall i : Index Fields, index_value i < size c)
  /\ map index_value (make_index_sequence Fields) = seq 0 (size c)
  /\ (forall i : Index Fields,
        get_field_name (index_value i) c
        = inr (nth (index_value i) names EmptyString))
  /\ (forall fuel w e s,
        read_data_container_helper fuel (make_index_sequence Fields) (c, w)
        <> Throws e s)
  /\ (forall fuel w e w',
        read_data_container (Fields := Fields) names fuel w <> Throws e w')
  /\ (forall header w,
        exists w', print_data_container c header w = Returns tt w').
Proof.
  intros Hc c. pose proof Hc as Hc'.
  apply construct_inr in Hc. destruct Hc as [-> Hlen].
  assert (Hnames : field_names c = names)
    by (unfold c; now rewrite field_names_apply_updates).
  assert (Hwf : List.length (field_names c) = List.length Fields)
    by now rewrite Hnames.
  split; [|split; [|split; [|split; [|split]]]].
  - intros i. apply index_value_lt.
  - apply make_index_sequence_values.
  - intros i. rewrite <- Hnames. now apply get_field_name_in_range.
  - intros fuel w e s. now apply helper_no_throw.
  - intros fuel w e w'. unfold read_data_container. rewrite Hc'.
    pose proof (helper_no_throw fuel (make_index_sequence Fields)
                  (mk_DataContainer (tuple_init Fields) names) w) as Hno.
    destruct (read_data_container_helper fuel (make_index_sequence Fields)
                (mk_DataContainer (tuple_init Fields) names, w))
      as [[] [c1 w1]|e1 [c1 w1]|[c1 w1]]; try discriminate.
    now elim (Hno e1 (c1, w1)).
  - intros header w. eexists.
    apply (print_data_container_output Fields names _ us header w Hc').
Qed.

Lemma bulk_operations_stay_in_range_witness :
  let c : DataContainer [int; StdString] :=
    apply_updates [existT _ (None : Index [int; StdString]) 30%Z]
      (mk_DataContainer (tuple_init [int; StdString]) ["Age"; "Name"]) in
  get_field_name (index_value (Some None : Index [int; StdString])) c
  = inr "Name"
  /\ exists w', print_data_container c "Person" (stdin "") = Returns tt w'.
Proof.
  intros c.
  pose proof (bulk_operations_stay_in_range [int; StdString] ["Age"; "Name"]
                (mk_DataContainer (tuple_init [int; StdString]) ["Age"; "Name"])
                [existT _ (None : Index [int; StdString]) 30%Z] eq_refl)
    as [_ [_ [Hname [_ [_ Hprint]]]]].
  split.
  - apply (Hname (Some None)).
  - apply (Hprint "Person" (stdin "")).
Defined.

End container_facts.

(** ** Properties of the number helpers *)

Module number_facts.
Import std mylib.
Local Open Scope Z_scope.

Lemma odd_divisor_loop_unfold number limit i :
  odd_divisor_loop number limit i
  = if i <=? limit
    then if Z.rem number i =? 0 then PrimeType.NotPrime
         else odd_divisor_loop number limit (i + 2)
    else PrimeType.Prime.
Proof.
  rewrite (odd_divisor_loop_equation_1 number limit i).
  unfold odd_divisor_loop_unfold_clause_1.
  destruct (Z_le_gt_dec i limit) as [H|H];
    destruct (Z.leb_spec i limit); try lia; reflexivity.
Qed.

(** The loop answers [NotPrime] exactly when one of [i], [i+2], [i+4], ...
    up to [limit] divides [number]. *)
Lemma odd_divisor_loop_NotPrime number limit :
  forall (n : nat) i, Z.to_nat (limit + 1 - i) = n ->
    odd_divisor_loop number limit i = PrimeType.NotPrime
    <-> exists k, 0 <= k /\ i + 2 * k <= limit /\ Z.rem number (i + 2 * k) = 0.
Proof.
  induction n as [n IH] using lt_wf_ind. intros i Hn.
  rewrite odd_divisor_loop_unfold.
  destruct (Z.leb_spec i limit) as [Hle|Hgt].
  - destruct (Z.eqb_spec (Z.rem number i) 0) as [Hrem|Hrem].
    + split; [intros _|reflexivity].
      exists 0. rewrite Z.mul_0_r, Z.add_0_r. lia.
    + rewrite (IH (Z.to_nat (limit + 1 - (i + 2)))) by lia.
      split; intros [k [Hk [Hlim Hdiv]]].
      * exists (k + 1). split; [lia|].
        replace (i + 2 * (k + 1)) with (i + 2 + 2 * k) by lia. now split.
      * destruct (Z.eq_dec k 0) as [->|Hk0].
        -- rewrite Z.mul_0_r, Z.add_0_r in Hdiv. contradiction.
        -- exists (k - 1). split; [lia|].
           replace (i + 2 + 2 * (k - 1)) with (i + 2 * k) by lia. now split.
  - split; [discriminate|]. intros [k [Hk [Hlim _]]]. lia.
Qed.

Lemma odd_divisor_loop_cases number limit i :
  odd_divisor_loop number limit i = PrimeType.Prime
  \/ odd_divisor_loop number limit i = PrimeType.NotPrime.
Proof. destruct (odd_divisor_loop number limit i); auto. Qed.

(** A composite number has a divisor above 1 whose square does not pass it. *)
Lemma small_divisor n m :
  1 < m < n -> (m | n) -> exists e, 1 < e /\ e * e <= n /\ (e | n).
Proof.
  intros Hm [q Hq].
  assert (Hq1 : 1 < q) by nia.
  destruct (Z_le_gt_dec m q) as [Hmq|Hmq].
  - exists m. split; [lia|]. split; [nia|]. now exists q.
  - exists q. split; [lia|]. split; [nia|]. exists m. lia.
Qed.

Lemma odd_number_odd_divisor n e :
  Z.rem n 2 <> 0 -> (e | n) -> Z.rem e 2 <> 0.
Proof.
  intros Hn [q Hq] He.
  apply Z.rem_divide in He; [|lia]. destruct He as [t Ht].
  apply Hn. apply Z.rem_divide; [lia|].
  exists (q * t). lia.
Qed.

Lemma is_prime_odd n :
  3 < n -> Z.rem n 2 <> 0 ->
  odd_divisor_loop n (Z.sqrt n) 3 = PrimeType.Prime <-> Z.prime n.
Proof.
  intros Hn Hodd.
  pose proof (odd_divisor_loop_NotPrime n (Z.sqrt n) _ 3 eq_refl) as Hloop.
  split.
  - intros Hp. split; [lia|].
    intros m Hm Hdiv.
    destruct (small_divisor n m Hm Hdiv) as [e [He1 [Hee Hen]]].
    pose proof (odd_number_odd_divisor n e Hodd Hen) as Heodd.
    assert (Hesq : e <= Z.sqrt n) by (apply Z.sqrt_le_square; lia).
    assert (He3 : 3 <= e).
    { destruct (Z.eq_dec e 2) as [->|]; [now elim Heodd|lia]. }
    assert (Hk : exists k, 0 <= k /\ e = 3 + 2 * k).
    { exists (e / 2 - 1).
      pose proof (Z.rem_mod_nonneg e 2 ltac:(lia) ltac:(lia)) as Hr.
      pose proof (Z.mod_pos_bound e 2 ltac:(lia)).
      pose proof (Z.div_mod e 2 ltac:(lia)).
      lia. }
    destruct Hk as [k [Hk0 Hk]].
    assert (Hnot : odd_divisor_loop n (Z.sqrt n) 3 = PrimeType.NotPrime).
    { apply Hloop. exists k. rewrite <- Hk.
      split; [lia|]. split; [lia|]. apply Z.rem_divide; [lia|assumption]. }
    rewrite Hp in Hnot. discriminate.
  - intros Hprime.
    destruct (odd_divisor_loop_cases n (Z.sqrt n) 3) as [H|H]; [exact H|].
    apply Hloop in H. destruct H as [k [Hk [Hlim Hdiv]]].
    destruct Hprime as [_ Hprime].
    exfalso. apply (Hprime (3 + 2 * k)).
    + pose proof (Z.sqrt_lt_lin n ltac:(lia)). lia.
    + apply Z.rem_divide; [lia|assumption].
Qed.

Lemma is_prime_decides_primality_aux (number : Z) :
  (number <= 0 ->
   is_prime number = inl (invalid_argument "Number must be positive"))
  /\ (0 < number ->
      (is_prime number = inr PrimeType.Prime <-> Z.prime number)
      /\ (is_prime number = inr PrimeType.NotPrime <-> ~ Z.prime number)).
Proof.
  unfold is_prime. split.
  - intros H. destruct (Z.leb_spec number 0); [reflexivity|lia].
  - intros Hpos.
    assert (Hgoal : forall p : PrimeType.t,
               (p = PrimeType.Prime <-> Z.prime number) ->
               (@inr exception _ p = inr PrimeType.Prime <-> Z.prime number)
               /\ (@inr exception _ p = inr PrimeType.NotPrime <-> ~ Z.prime number)).
    { intros p Hp. split.
      - rewrite <- Hp. split; [now intros [= ->]|now intros ->].
      - rewrite <- Hp.
        destruct p; split; intros H;
          first [reflexivity | discriminate | (intro; discriminate)
                | (exfalso; apply H; reflexivity)]. }
    destruct (Z.leb_spec number 0) as [Hle|_]; [lia|].
    destruct (Z.eqb_spec number 1) as [->|H1].
    { apply Hgoal. split; [discriminate|]. intros Hp. now elim Z.not_prime_1. }
    destruct (Z.eqb_spec number 2) as [->|H2].
    { apply Hgoal. split; [intros _; exact Z.prime_2|reflexivity]. }
    destruct (Z.eqb_spec number 3) as [->|H3]; simpl.
    { apply Hgoal. split; [intros _; exact Z.prime_3|reflexivity]. }
    destruct (Z.eqb_spec (Z.rem number 2) 0) as [Heven|Hodd].
    { apply Hgoal. split; [discriminate|]. intros Hprime.
      destruct Hprime as [_ Hprime].
      exfalso. apply (Hprime 2); [lia|]. apply Z.rem_divide; [lia|assumption]. }
    apply Hgoal. apply is_prime_odd; [lia|assumption].
Qed.

(** X11: [is_prime<int>] throws [std::invalid_argument] for a number that is
    not positive; for a positive [int] it answers [Prime] exactly when the
    number is prime. *)
Theorem is_prime_decides_primality (number : Z) :
  (number <= 0 ->
   is_prime number = inl (invalid_argument "Number must be positive"))
  /\ (0 < number <= INT_MAX ->
      (is_prime number = inr PrimeType.Prime <-> Z.prime number)
      /\ (is_prime number = inr PrimeType.NotPrime <-> ~ Z.prime number)).
Proof.
  destruct (is_prime_decides_primality_aux number) as [Hneg Hpos].
  split; [exact Hneg|]. intros [H _]. now apply Hpos.
Qed.

Lemma is_prime_decides_primality_witness :
  is_prime (-4) = inl (invalid_argument "Number must be positive")
  /\ ((is_prime 97 = inr PrimeType.Prime <-> Z.prime 97)
      /\ (is_prime 97 = inr PrimeType.NotPrime <-> ~ Z.prime 97)).
Proof.
  split.
  - apply (proj1 (is_prime_decides_primality (-4))). lia.
  - apply (proj2 (is_prime_decides_primality 97)). unfold INT_MAX. lia.
Defined.

(** *** Counting loops *)

Lemma for_up_unfold body to i w :
  for_up body to i w
  = if i <=? to
    then match body i w with
         | Returns _ w' => for_up body to (i + 1) w'
         | stopped => stopped
         end
    else Returns tt w.
Proof.
  rewrite (for_up_equation_1 body to i w). unfold for_up_unfold_clause_1.
  destruct (Z_le_gt_dec i to); destruct (Z.leb_spec i to); try lia; reflexivity.
Qed.

Lemma for_down_unfold body to i w :
  for_down body to i w
  = if to <=? i
    then match body i w with
         | Returns _ w' => for_down body to (i - 1) w'
         | stopped => stopped
         end
    else Returns tt w.
Proof.
  rewrite (for_down_equation_1 body to i w). unfold for_down_unfold_clause_1.
  destruct (Z_le_gt_dec to i); destruct (Z.leb_spec to i); try lia; reflexivity.
Qed.

Lemma interval_empty from to : to < from -> interval from to = [].
Proof. intros H. unfold interval. now replace (Z.to_nat (to + 1 - from)) with O by lia. Qed.

Lemma interval_first from to :
  from <= to -> interval from to = from :: interval (from + 1) to.
Proof.
  intros H. unfold interval.
  replace (Z.to_nat (to + 1 - from)) with (S (Z.to_nat (to + 1 - (from + 1))))
    by lia.
  simpl. rewrite Z.add_0_r. f_equal.
  rewrite <- seq_shift, map_map. apply map_ext. intros k. lia.
Qed.

Lemma interval_last from to :
  from <= to -> interval from to = (interval from (to - 1) ++ [to])%list.
Proof.
  intros H. unfold interval.
  replace (Z.to_nat (to + 1 - from)) with (Z.to_nat (to - 1 + 1 - from) + 1)%nat
    by lia.
  rewrite seq_app, map_app. simpl. do 2 f_equal. lia.
Qed.

Lemma in_interval from to i : In i (interval from to) <-> from <= i <= to.
Proof.
  unfold interval. rewrite in_map_iff. split.
  - intros [k [<- Hk]]. apply in_seq in Hk. lia.
  - intros H. exists (Z.to_nat (i - from)). split; [lia|]. apply in_seq. lia.
Qed.

(** A loop that writes one line for each index it selects. *)
Lemma for_up_lines (select : Z -> bool) (line : Z -> string) body to :
  (forall i w, body i w
               = Returns tt (if select i then print (line i) w else w)) ->
  forall (n : nat) i w, Z.to_nat (to + 1 - i) = n ->
    for_up body to i w
    = Returns tt (print (lines (map line (filter select (interval i to)))) w).
Proof.
  intros Hbody. induction n as [|n IH]; intros i w Hn.
  - rewrite for_up_unfold. destruct (Z.leb_spec i to); [lia|].
    rewrite interval_empty by lia. simpl.
    now rewrite container_facts.print_nothing.
  - rewrite for_up_unfold. destruct (Z.leb_spec i to); [|lia].
    rewrite Hbody, (IH (i + 1)) by lia.
    rewrite (interval_first i to) by lia. simpl.
    destruct (select i); simpl; [|reflexivity].
    now rewrite container_facts.print_print.
Qed.

Lemma for_down_lines (line : Z -> string) body to :
  (forall i w, body i w = Returns tt (print (line i) w)) ->
  forall (n : nat) i w, Z.to_nat (i + 1 - to) = n ->
    for_down body to i w
    = Returns tt (print (lines (map line (rev (interval to i)))) w).
Proof.
  intros Hbody. induction n as [|n IH]; intros i w Hn.
  - rewrite for_down_unfold. destruct (Z.leb_spec to i); [lia|].
    rewrite interval_empty by lia. simpl.
    now rewrite container_facts.print_nothing.
  - rewrite for_down_unfold. destruct (Z.leb_spec to i); [|lia].
    rewrite Hbody, (IH (i - 1)) by lia.
    rewrite (interval_last to i) by lia.
    rewrite rev_app_distr. simpl.
    now rewrite container_facts.print_print.
Qed.

Lemma print_number_line_text prefix suffix i w :
  print_number_line prefix suffix i w = print (number_line prefix suffix i) w.
Proof.
  unfold print_number_line, number_line.
  now rewrite !container_facts.print_print, ?container_facts.append_assoc.
Qed.

(** X12: [print_range] writes the header line when there is a header, then
    one line per integer from 1 to [n]: in increasing order when [n] is
    below [INT_MAX] (at [INT_MAX] the counter of the ascending loop
    overflows), or, for every [n], in exactly the reverse order when
    [descending] is set; for [n < 1] only the header is written. *)
Theorem print_range_lines (n : Z) (header prefix suffix : string) (w : world) :
  (n < INT_MAX ->
   print_range n header prefix suffix false w
   = Returns tt
       (print (lines (map (number_line prefix suffix) (interval 1 n)))
              (print_header header w)))
  /\ print_range n header prefix suffix true w
     = Returns tt
         (print (lines (map (number_line prefix suffix) (rev (interval 1 n))))
                (print_header header w))
  /\ (n < 1 ->
      print_range n header prefix suffix false w
      = Returns tt (print_header header w)
      /\ print_range n header prefix suffix true w
         = Returns tt (print_header header w)).
Proof.
  unfold print_range.
  assert (Hup : for_up
            (fun i w0 => Returns tt (print_number_line prefix suffix i w0))
            n 1 (print_header header w)
          = Returns tt
              (print (lines (map (number_line prefix suffix) (interval 1 n)))
                     (print_header header w))).
  { rewrite (for_up_lines (fun _ => true) (number_line prefix suffix) _ n)
      with (n := Z.to_nat (n + 1 - 1)); try reflexivity.
    - f_equal. f_equal. f_equal. f_equal.
      induction (interval 1 n) as [|x l IHl]; simpl; [reflexivity|now rewrite IHl].
    - intros i w0. now rewrite print_number_line_text. }
  assert (Hdown : for_down
            (fun i w0 => Returns tt (print_number_line prefix suffix i w0))
            1 n (print_header header w)
          = Returns tt
              (print (lines (map (number_line prefix suffix) (rev (interval 1 n))))
                     (print_header header w))).
  { apply (for_down_lines (number_line prefix suffix) _ 1) with
      (n := Z.to_nat (n + 1 - 1)); [|reflexivity].
    intros i w0. now rewrite print_number_line_text. }
  split; [intros _; exact Hup|split; [exact Hdown|]].
  intros Hn. rewrite Hup, Hdown. rewrite interval_empty by lia. simpl.
  now rewrite container_facts.print_nothing.
Qed.

Lemma print_range_lines_witness :
  print_range 3 "Range:" "" ";" false (stdin "")
  = Returns tt (print ("Range:" ++ endl ++ "1;" ++ endl ++ "2;" ++ endl
                       ++ "3;" ++ endl) (stdin ""))
  /\ print_range 3 "" "" ";" true (stdin "")
     = Returns tt (print ("3;" ++ endl ++ "2;" ++ endl ++ "1;" ++ endl)
                         (stdin "")).
Proof.
  split.
  - apply (proj1 (print_range_lines 3 "Range:" "" ";" (stdin ""))).
    reflexivity.
  - apply (proj1 (proj2 (print_range_lines 3 "" "" ";" (stdin "")))).
Defined.

(** X13: [print_prime_numbers] throws [std::invalid_argument], writing
    nothing, when [end] is below the start raised to at least 1; when [end]
    is at least that and below [INT_MAX] (at [INT_MAX] the counter of the
    loop overflows) it does not throw (the guard of [is_prime] is never hit)
    and writes, after the header, one line for each prime between the two
    bounds, in increasing order. *)
Theorem print_prime_numbers_lines
    (start end_ : Z) (header prefix suffix : string) (w : world) :
  (end_ < Z.max start 1 ->
   print_prime_numbers start end_ header prefix suffix w
   = Throws (invalid_argument
               "End value must be greater than or equal to start value") w)
  /\ (Z.max start 1 <= end_ < INT_MAX ->
      exists shown : Z -> bool,
        (forall i, Z.max start 1 <= i <= end_ ->
                   (shown i = true <-> Z.prime i))
        /\ print_prime_numbers start end_ header prefix suffix w
           = Returns tt
               (print (lines (map (number_line prefix suffix)
                                  (filter shown (interval (Z.max start 1) end_))))
                      (print_header header w))).
Proof.
  unfold print_prime_numbers.
  assert (Hstart : (if start <? 1 then 1 else start) = Z.max start 1)
    by (destruct (Z.ltb_spec start 1); lia).
  rewrite Hstart. split.
  - intros H. destruct (Z.ltb_spec end_ (Z.max start 1)); [reflexivity|lia].
  - intros [Hle Hmax].
    destruct (Z.ltb_spec end_ (Z.max start 1)); [lia|].
    exists (fun i => match is_prime i with
                     | inr PrimeType.Prime => true
                     | _ => false
                     end).
    split.
    + intros i Hi.
      destruct (proj2 (is_prime_decides_primality_aux i)) as [Hp Hn]; [lia|].
      destruct (is_prime i) as [e|[|]] eqn:E.
      * split; [discriminate|]. intros Hprime.
        apply Hp in Hprime. discriminate.
      * split; [intros _; now apply Hp|reflexivity].
      * split; [discriminate|]. intros Hprime. apply Hp in Hprime. discriminate.
    + set (shown := fun i => match is_prime i with
                             | inr PrimeType.Prime => true
                             | _ => false
                             end).
      (* Below the first index nothing is examined, so the body may be
         replaced by one that does not throw. *)
      assert (Hrun : forall (n : nat) i w0,
                 Z.to_nat (end_ + 1 - i) = n -> 1 <= i ->
                 for_up
                   (fun i w1 =>
                      match is_prime i with
                      | inl e => Throws e w1
                      | inr p =>
                          if PrimeType.eqb p PrimeType.Prime
                          then Returns tt (print_number_line prefix suffix i w1)
                          else Returns tt w1
                      end) end_ i w0
                 = Returns tt
                     (print (lines (map (number_line prefix suffix)
                                        (filter shown (interval i end_)))) w0)).
      { induction n as [|n IH]; intros i w0 Hn Hi.
        - rewrite for_up_unfold. destruct (Z.leb_spec i end_); [lia|].
          rewrite interval_empty by lia. simpl.
          now rewrite container_facts.print_nothing.
        - rewrite for_up_unfold. destruct (Z.leb_spec i end_); [|lia].
          rewrite (interval_first i end_) by lia. simpl. unfold shown at 1.
          assert (Hne : forall e, is_prime i <> inl e).
          { intros e. unfold is_prime.
            destruct (Z.leb_spec i 0); [lia|].
            destruct (i =? 1); [discriminate|].
            destruct ((i =? 2) || (i =? 3)); [discriminate|].
            destruct (Z.rem i 2 =? 0); discriminate. }
          destruct (is_prime i) as [e|[|]].
          + now elim (Hne e).
          + simpl. rewrite (IH (i + 1)) by lia.
            now rewrite print_number_line_text, container_facts.print_print.
          + simpl. now rewrite (IH (i + 1)) by lia. }
      apply (Hrun _ _ _ eq_refl). lia.
Qed.

Lemma print_prime_numbers_lines_witness :
  print_prime_numbers 5 (-2) "Prime Numbers:" "" "" (stdin "")
  = Throws (invalid_argument
              "End value must be greater than or equal to start value")
           (stdin "")
  /\ exists shown : Z -> bool,
       (forall i, Z.max (-3) 1 <= i <= 12 -> (shown i = true <-> Z.prime i))
       /\ print_prime_numbers (-3) 12 "Prime Numbers:" "" "" (stdin "")
          = Returns tt
              (print (lines (map (number_line "" "")
                                 (filter shown (interval (Z.max (-3) 1) 12))))
                     (print_header "Prime Numbers:" (stdin ""))).
Proof.
  split.
  - apply (proj1 (print_prime_numbers_lines 5 (-2) "Prime Numbers:" "" ""
                    (stdin ""))).
    reflexivity.
  - apply (proj2 (print_prime_numbers_lines (-3) 12 "Prime Numbers:" "" ""
                    (stdin ""))).
    split; [discriminate|reflexivity].
Defined.

(** *** Character ranges *)

Lemma to_char_range z : CHAR_MIN <= to_char z <= CHAR_MAX.
Proof.
  unfold to_char, CHAR_MIN, CHAR_MAX.
  pose proof (Z.mod_pos_bound (z + 128) 256 ltac:(lia)). lia.
Qed.

Lemma to_char_id z : CHAR_MIN <= z <= CHAR_MAX -> to_char z = z.
Proof.
  unfold to_char, CHAR_MIN, CHAR_MAX. intros H.
  rewrite Z.mod_small by lia. lia.
Qed.

Lemma print_char_line_text prefix suffix c w :
  print_char_line prefix suffix c w = print (char_line prefix suffix c) w.
Proof.
  unfold print_char_line, char_line.
  now rewrite !container_facts.print_print, ?container_facts.append_assoc.
Qed.

Lemma char_loop_always step test prefix suffix :
  (forall c, CHAR_MIN <= c <= CHAR_MAX -> test c = true) ->
  forall fuel c w, CHAR_MIN <= c <= CHAR_MAX ->
    exists w', char_loop step test prefix suffix fuel c w = Spins w'.
Proof.
  intros Htest. induction fuel as [|fuel IH]; intros c w Hc; simpl.
  - now exists w.
  - rewrite Htest by exact Hc. apply IH. apply to_char_range.
Qed.

Lemma char_loop_up prefix suffix end_ :
  end_ < CHAR_MAX ->
  forall (n fuel : nat) c w,
    Z.to_nat (end_ + 1 - c) = n -> (n < fuel)%nat -> CHAR_MIN <= c ->
    char_loop 1 (fun c => c <=? end_) prefix suffix fuel c w
    = Returns tt (print (lines (map (char_line prefix suffix) (interval c end_))) w).
Proof.
  intros Hend. induction n as [|n IH]; intros fuel c w Hn Hfuel Hc;
    (destruct fuel as [|fuel]; [lia|]); simpl.
  - destruct (Z.leb_spec c end_); [lia|].
    rewrite interval_empty by lia. simpl.
    now rewrite container_facts.print_nothing.
  - destruct (Z.leb_spec c end_); [|lia].
    rewrite to_char_id by (unfold CHAR_MIN, CHAR_MAX in *; lia).
    rewrite (IH fuel (c + 1)) by lia.
    rewrite (interval_first c end_) by lia. simpl.
    now rewrite print_char_line_text, container_facts.print_print.
Qed.

Lemma char_loop_down prefix suffix start :
  CHAR_MIN < start ->
  forall (n fuel : nat) c w,
    Z.to_nat (c + 1 - start) = n -> (n < fuel)%nat -> c <= CHAR_MAX ->
    char_loop (-1) (fun c => c >=? start) prefix suffix fuel c w
    = Returns tt
        (print (lines (map (char_line prefix suffix) (rev (interval start c)))) w).
Proof.
  intros Hstart. induction n as [|n IH]; intros fuel c w Hn Hfuel Hc;
    (destruct fuel as [|fuel]; [lia|]); simpl.
  - rewrite Z.geb_leb. destruct (Z.leb_spec start c); [lia|].
    rewrite interval_empty by lia. simpl.
    now rewrite container_facts.print_nothing.
  - rewrite Z.geb_leb. destruct (Z.leb_spec start c); [|lia].
    rewrite to_char_id by (unfold CHAR_MIN, CHAR_MAX in *; lia).
    replace (c + -1) with (c - 1) by lia.
    rewrite (IH fuel (c - 1)) by lia.
    rewrite (interval_last start c) by lia.
    rewrite rev_app_distr. simpl.
    now rewrite print_char_line_text, container_facts.print_print.
Qed.

(** X14: between bounds that are not the extreme values of [char],
    [print_char_range] writes one line per character from [start] to [end],
    in increasing order or, with [descending], in the reverse order, and
    returns. *)
Theorem print_char_range_lines
    (start end_ : Z) (header prefix suffix : string) (fuel : nat) (w : world) :
  CHAR_MIN < start -> end_ < CHAR_MAX ->
  (Z.to_nat (end_ + 1 - start) < fuel)%nat ->
  print_char_range start end_ header prefix suffix false fuel w
  = Returns tt
      (print (lines (map (char_line prefix suffix) (interval start end_)))
             (print_header header w))
  /\ print_char_range start end_ header prefix suffix true fuel w
     = Returns tt
         (print (lines (map (char_line prefix suffix) (rev (interval start end_))))
                (print_header header w)).
Proof.
  intros Hstart Hend Hfuel. unfold print_char_range. split.
  - apply (char_loop_up prefix suffix end_ Hend _ fuel start _ eq_refl);
      [exact Hfuel|lia].
  - apply (char_loop_down prefix suffix start Hstart _ fuel end_ _ eq_refl);
      [exact Hfuel|lia].
Qed.

Lemma print_char_range_lines_witness :
  print_char_range 97 99 "" "<" ">" false 4 (stdin "")
  = Returns tt (print ("<a>" ++ endl ++ "<b>" ++ endl ++ "<c>" ++ endl)
                      (stdin ""))
  /\ print_char_range 97 99 "" "<" ">" true 4 (stdin "")
     = Returns tt (print ("<c>" ++ endl ++ "<b>" ++ endl ++ "<a>" ++ endl)
                         (stdin "")).
Proof.
  apply (print_char_range_lines 97 99 "" "<" ">" 4 (stdin ""));
    [reflexivity|reflexivity|simpl; lia].
Defined.

(** X15: when [end] is the greatest [char], the ascending loop of
    [print_char_range] never ends, whatever the start: [++c] wraps around
    before [c <= end] can fail.  The descending loop never ends when [start]
    is the least [char]. *)
Theorem print_char_range_never_ends_at_extremes
    (start end_ : Z) (header prefix suffix : string) (fuel : nat) (w : world) :
  CHAR_MIN <= start <= CHAR_MAX -> CHAR_MIN <= end_ <= CHAR_MAX ->
  (end_ = CHAR_MAX ->
   exists w', print_char_range start end_ header prefix suffix false fuel w
              = Spins w')
  /\ (start = CHAR_MIN ->
      exists w', print_char_range start end_ header prefix suffix true fuel w
                 = Spins w').
Proof.
  intros Hstart Hend. unfold print_char_range. split; intros ->.
  - apply char_loop_always; [|exact Hstart].
    intros c Hc. apply Z.leb_le. lia.
  - apply char_loop_always; [|exact Hend].
    intros c Hc. rewrite Z.geb_leb. apply Z.leb_le. lia.
Qed.

Lemma print_char_range_never_ends_at_extremes_witness :
  (exists w', print_char_range 120 127 "" "" "" false 1000 (stdin "") = Spins w')
  /\ (exists w', print_char_range (-128) (-120) "" "" "" true 1000 (stdin "")
                 = Spins w').
Proof.
  split.
  - apply (proj1 (print_char_range_never_ends_at_extremes
                    120 127 "" "" "" 1000 (stdin "")
                    ltac:(unfold CHAR_MIN, CHAR_MAX; lia)
                    ltac:(unfold CHAR_MIN, CHAR_MAX; lia))).
    reflexivity.
  - apply (proj2 (print_char_range_never_ends_at_extremes
                    (-128) (-120) "" "" "" 1000 (stdin "")
                    ltac:(unfold CHAR_MIN, CHAR_MAX; lia)
                    ltac:(unfold CHAR_MIN, CHAR_MAX; lia))).
    reflexivity.
Defined.

(** *** Number properties *)


End number_facts.

(** ** Properties of the reader and its callers *)

Module caller_facts.
Import std mylib.

Section retry_loop.
Context (T : ctype) (prompt : string) (validator : cval T -> bool)
        (error_msg : string).

Lemma loop_body_exhausted value w :
  rdbuf (cin w) = EmptyString -> empty_if_string T value ->
  exists value' w',
    loop_body T prompt validator error_msg value w = Again value' w'
    /\ rdbuf (cin w') = EmptyString /\ empty_if_string T value'.
Proof.
  destruct w as [[b e f] out]. simpl. intros -> Hvalue.
  unfold loop_body, read_input.
  destruct T as [it|ft| |ct]; simpl in *;
    try (unfold read_token, formatted_input, ignore, good, fail; simpl;
         destruct e, f; simpl; eexists; eexists; (split; [reflexivity|]);
         simpl; (split; [reflexivity|exact I])).
  subst value. unfold getline, good; simpl.
  destruct e, f; simpl; eexists; eexists; (split; [reflexivity|]);
    simpl; split; reflexivity.
Qed.

Lemma read_value_loop_exhausted fuel : forall value w,
  rdbuf (cin w) = EmptyString -> empty_if_string T value ->
  exists w', read_value_loop T prompt validator error_msg fuel value w = Spins w'.
Proof.
  induction fuel as [|fuel IH]; intros value w Hbuf Hvalue; simpl.
  - now exists w.
  - destruct (loop_body_exhausted value w Hbuf Hvalue)
      as [value' [w' [-> [Hbuf' Hvalue']]]].
    now apply IH.
Qed.

Lemma read_value_loop_rejecting :
  (forall v, InputValidator.is_valid T v && validator v = false) ->
  forall fuel value w,
    exists w', read_value_loop T prompt validator error_msg fuel value w = Spins w'.
Proof.
  intros Hrej. induction fuel as [|fuel IH]; intros value w; simpl.
  - now exists w.
  - destruct (loop_body T prompt validator error_msg value w) as [v w'|v w'] eqn:E.
    + apply IH.
    + apply reader_facts.loop_body_Done in E. destruct E as [E1 E2].
      specialize (Hrej v). rewrite E1, E2 in Hrej. discriminate.
Qed.

Lemma loop_body_output value w :
  match loop_body T prompt validator error_msg value w with
  | Done _ w' => cout w' = cout w ++ prompt
  | Again _ w' =>
      exists m, rejection_message T error_msg m
                /\ cout w' = (cout w ++ prompt) ++ m ++ endl
  end.
Proof.
  unfold loop_body.
  destruct (read_input T value (cin (print prompt w))) as [[s v] failed].
  destruct failed.
  - eexists. split; [right; reflexivity|]. simpl.
    now rewrite !container_facts.append_assoc.
  - destruct (InputValidator.is_valid T v && validator v); [reflexivity|].
    eexists. split; [left; reflexivity|]. reflexivity.
Qed.

End retry_loop.

(** X1: once the input is used up, [read_value] never returns, for any
    type, validator and number of attempts: every further attempt is
    rejected. *)
Theorem read_value_never_returns_on_exhausted_input
    (T : ctype) (prompt : string) (validator : cval T -> bool)
    (error_msg : string) (fuel : nat) (w : world) :
  rdbuf (cin w) = EmptyString ->
  exists w', read_value T prompt validator error_msg fuel w = Spins w'.
Proof.
  intros Hbuf. apply read_value_loop_exhausted; [exact Hbuf|].
  destruct T; simpl; auto.
Qed.

Lemma read_value_never_returns_on_exhausted_input_witness :
  exists w', read_value StdString "Name: " (default_validator StdString)
               default_error_msg 100 (stdin "") = Spins w'.
Proof.
  apply (read_value_never_returns_on_exhausted_input StdString "Name: "
           (default_validator StdString) default_error_msg 100 (stdin "")).
  reflexivity.
Defined.

Lemma after_newline_none rest :
  has_newline rest = false -> after_newline rest = (EmptyString, true).
Proof.
  induction rest as [|c rest IH]; simpl; [reflexivity|].
  destruct (Ascii.eqb c newline); simpl; [discriminate|exact IH].
Qed.

(** X2: a token that runs up to the end of the input (no newline after it)
    is rejected with the format error even when its conversion succeeded,
    because [ignore] runs before the [fail()] test; and since nothing is left
    to read, the call never returns. *)
Theorem unterminated_last_token_is_rejected
    (T : ctype) (prompt : string) (validator : cval T -> bool)
    (error_msg : string) (value : cval T) (w : world)
    (ops : stream_ops (cval T)) (c : ascii) (b : string)
    (st : option (cval T)) (rest : string) (failed : bool) :
  good (cin w) = true ->
  token_stream T = Some ops ->
  skipws (rdbuf (cin w)) = String c b ->
  get_from ops (String c b) = mk_extraction st rest true failed ->
  has_newline rest = false ->
  loop_body T prompt validator error_msg value w
  = Again (stored st value)
      (mk_world (mk_istream EmptyString true false)
         ((cout w ++ prompt) ++ "Error: Invalid "
            ++ InputValidator.type_name T ++ " format. " ++ error_msg ++ endl))
  /\ forall fuel,
      exists w', read_value_loop T prompt validator error_msg fuel value w
                 = Spins w'.
Proof.
  intros Hgood Hops Hb Hget Hrest.
  assert (Hbody : loop_body T prompt validator error_msg value w
                  = Again (stored st value)
                      (mk_world (mk_istream EmptyString true false)
                         ((cout w ++ prompt) ++ "Error: Invalid "
                            ++ InputValidator.type_name T ++ " format. "
                            ++ error_msg ++ endl))).
  { destruct T as [it|ft| |ct]; simpl in Hops; try discriminate;
      injection Hops as <-;
      unfold loop_body, read_input, read_token, formatted_input; simpl;
      simpl in Hget; rewrite Hgood, Hb; simpl; rewrite Hget; simpl;
      unfold ignore, good, fail; simpl;
      rewrite (after_newline_none rest Hrest); reflexivity. }
  split; [exact Hbody|].
  intros [|fuel]; simpl; [now exists w|].
  rewrite Hbody. apply read_value_loop_exhausted; [reflexivity|].
  destruct T; simpl in *; try exact I. discriminate.
Qed.

Lemma unterminated_last_token_is_rejected_witness :
  loop_body int "? " (default_validator int) "Again." 0%Z (stdin "42")
  = Again (T := int) 42%Z
      (mk_world (mk_istream EmptyString true false)
         ("? Error: Invalid integer format. Again." ++ endl))
  /\ forall fuel,
      exists w', read_value_loop int "? " (default_validator int) "Again."
                   fuel 0%Z (stdin "42") = Spins w'.
Proof.
  apply (unterminated_last_token_is_rejected int "? " (default_validator int)
           "Again." 0%Z (stdin "42") int_ops "4"%char "2" (Some 42%Z)
           EmptyString false); reflexivity.
Defined.

(** X3: when [read_value] returns, what it has written is the prompt once
    per attempt, each rejected attempt followed by exactly one message line
    (the error message, or the format error that embeds it), and nothing
    after the last prompt. *)
Theorem read_value_transcript
    (T : ctype) (prompt : string) (validator : cval T -> bool)
    (error_msg : string) (fuel : nat) (w : world) (v : cval T) (w' : world) :
  read_value T prompt validator error_msg fuel w = Returns v w' ->
  exists msgs : list string,
    Forall (rejection_message T error_msg) msgs
    /\ (List.length msgs < fuel)%nat
    /\ cout w'
       = cout w ++ lines (map (fun m => prompt ++ m ++ endl) msgs) ++ prompt.
Proof.
  unfold read_value. generalize (value_init T) as value.
  revert w. induction fuel as [|fuel IH]; intros w value; simpl; [discriminate|].
  pose proof (loop_body_output T prompt validator error_msg value w) as Hout.
  destruct (loop_body T prompt validator error_msg value w) as [v1 w1|v1 w1].
  - intros Hrun. destruct Hout as [m [Hm Hcout]].
    destruct (IH w1 v1 Hrun) as [msgs [Hmsgs [Hlen Hrest]]].
    exists (m :: msgs). split; [now constructor|]. split; [simpl; lia|].
    rewrite Hrest, Hcout. simpl.
    now rewrite !container_facts.append_assoc.
  - intros [= -> ->]. exists []. split; [constructor|]. split; [simpl; lia|].
    exact Hout.
Qed.

Lemma read_value_transcript_witness :
  exists msgs : list string,
    Forall (rejection_message int "Again.") msgs
    /\ (List.length msgs < 5)%nat
    /\ cout (mk_world (mk_istream "" false false)
               ("? Error: Invalid integer format. Again." ++ endl
                ++ "? Again." ++ endl ++ "? "))
       = cout (stdin ("x" ++ endl ++ "-3" ++ endl ++ "42" ++ endl))
         ++ lines (map (fun m => "? " ++ m ++ endl) msgs) ++ "? ".
Proof.
  apply (read_value_transcript int "? " (fun v => (0 <? v)%Z) "Again." 5
           (stdin ("x" ++ endl ++ "-3" ++ endl ++ "42" ++ endl)) 42%Z).
  reflexivity.
Defined.

Lemma read_number_Returns
    (N : arithmetic) (prompt : option string)
    (min_value max_value : option (cval (arith_type N)))
    (fuel : nat) (w : world) (v : cval (arith_type N)) (w' : world) :
  read_number N prompt min_value max_value fuel w = Returns v w' ->
  le N (or_default (numeric_limits_lowest N) min_value) v = true
  /\ le N v (or_default (numeric_limits_max N) max_value) = true.
Proof.
  unfold read_number, read_value. intros Hrun.
  apply reader_facts.read_value_loop_Returns in Hrun.
  destruct Hrun as [_ Hrange]. unfold range_validator in Hrange.
  apply andb_true_iff in Hrange. destruct Hrange as [Hge Hle].
  rewrite reader_facts.ge_le in Hge. now split.
Qed.

(** X4: a value returned by [read_number] lies between the two bounds in
    force, the given ones or the type's lowest and greatest values. *)
Theorem read_number_result_in_range
    (N : arithmetic) (prompt : option string)
    (min_value max_value : option (cval (arith_type N)))
    (fuel : nat) (w : world) (v : cval (arith_type N)) (w' : world) :
  read_number N prompt min_value max_value fuel w = Returns v w' ->
  le N (or_default (numeric_limits_lowest N) min_value) v = true
  /\ le N v (or_default (numeric_limits_max N) max_value) = true.
Proof.
  unfold read_number, read_value. intros Hrun.
  apply reader_facts.read_value_loop_Returns in Hrun.
  destruct Hrun as [_ Hrange]. unfold range_validator in Hrange.
  apply andb_true_iff in Hrange. destruct Hrange as [Hge Hle].
  rewrite reader_facts.ge_le in Hge. now split.
Qed.

Lemma read_number_result_in_range_witness :
  le (ArInt int_type) 1%Z 7%Z = true /\ le (ArInt int_type) 7%Z 10%Z = true.
Proof.
  apply (read_number_result_in_range (ArInt int_type) (Some "Enter 1-10: ")
           (Some 1%Z) (Some 10%Z) 3
           (stdin ("15" ++ endl ++ "abc" ++ endl ++ "7" ++ endl)) 7%Z
           (mk_world (mk_istream "" false false)
              ("Enter 1-10: Please enter a number between 1 and 10." ++ endl
               ++ "Enter 1-10: Error: Invalid integer format. "
               ++ "Please enter a number between 1 and 10." ++ endl
               ++ "Enter 1-10: "))).
  reflexivity.
Defined.

(** X5: with integer bounds given the wrong way round ([max < min]),
    [read_number] rejects every input and never returns. *)
Theorem read_number_never_returns_on_empty_range
    (it : integral_type) (prompt : option string) (min_value max_value : Z)
    (fuel : nat) (w : world) :
  (max_value < min_value)%Z ->
  exists w', read_number (ArInt it) prompt (Some min_value) (Some max_value)
               fuel w = Spins w'.
Proof.
  intros Hinv. unfold read_number, read_value.
  apply read_value_loop_rejecting.
  intros v. simpl. unfold range_validator. simpl.
  rewrite Z.geb_leb.
  destruct (Z.leb_spec min_value v), (Z.leb_spec v max_value);
    try reflexivity; lia.
Qed.

Lemma read_number_never_returns_on_empty_range_witness :
  exists w', read_number (ArInt int_type) (Some "Enter 10-1: ")
               (Some 10%Z) (Some 1%Z) 50
               (stdin ("5" ++ endl ++ "10" ++ endl ++ "1" ++ endl)) = Spins w'.
Proof.
  apply (read_number_never_returns_on_empty_range int_type
           (Some "Enter 10-1: ") 10 1 50
           (stdin ("5" ++ endl ++ "10" ++ endl ++ "1" ++ endl))).
  lia.
Defined.

(** *** [read_name] *)

Lemma all_of_In p s :
  all_of p s = true -> forall c, In c (list_ascii_of_string s) -> p c = true.
Proof.
  induction s as [|a s IH]; simpl; [intros _ c []|].
  intros H c [<-|Hc]; apply andb_true_iff in H; destruct H as [Ha Hs];
    [exact Ha|now apply IH].
Qed.

(** X6: a name returned by [read_name] is not empty and consists of
    letters, whitespace, hyphens and apostrophes only. *)
Theorem read_name_result (prompt : string) (fuel : nat) (w : world)
    (name : string) (w' : world) :
  read_name prompt fuel w = Returns name w' ->
  name <> EmptyString
  /\ forall c, In c (list_ascii_of_string name) ->
       isalpha c = true \/ isspace c = true
       \/ c = "-"%char \/ c = "'"%char.
Proof.
  unfold read_name, read_value. intros Hrun.
  apply (reader_facts.read_value_loop_Returns StdString) in Hrun.
  destruct Hrun as [Hvalid Hname]. unfold name_validator in Hname.
  split.
  - intros ->. discriminate.
  - destruct (is_empty name); [discriminate|].
    intros c Hc. pose proof (all_of_In _ _ Hname c Hc) as H. simpl in H.
    apply orb_true_iff in H. destruct H as [H|H].
    + apply orb_true_iff in H. destruct H as [H|H].
      * apply orb_true_iff in H. destruct H as [H|H]; [now left|now right; left].
      * right; right; left. now apply Ascii.eqb_eq.
    + right; right; right. now apply Ascii.eqb_eq.
Qed.

Lemma read_name_result_witness :
  "Anne-Marie O'Neil" <> EmptyString
  /\ forall c, In c (list_ascii_of_string "Anne-Marie O'Neil") ->
       isalpha c = true \/ isspace c = true
       \/ c = "-"%char \/ c = "'"%char.
Proof.
  apply (read_name_result "Name: " 5
           (stdin ("R2D2" ++ endl ++ "Anne-Marie O'Neil" ++ endl))
           "Anne-Marie O'Neil"
           (mk_world (mk_istream "" false false)
              ("Name: Name should contain only letters, spaces, hyphens, "
               ++ "and apostrophes." ++ endl ++ "Name: "))).
  reflexivity.
Defined.

(** *** [read_task_duration] *)

Lemma bind_Returns {St A B} (m : outcome St A) (k : A -> St -> outcome St B)
    b s' :
  bind m k = Returns b s' ->
  exists a s, m = Returns a s /\ k a s = Returns b s'.
Proof.
  destruct m as [a s|e s|s]; simpl; try discriminate.
  intros H. now exists a, s.
Qed.

Lemma read_positive_int_Returns prompt fuel w v w' :
  time.read_positive_int prompt fuel w = Returns v w' ->
  (1 <= v <= INT_MAX)%Z.
Proof.
  unfold time.read_positive_int. intros H.
  apply (read_number_Returns (ArInt int_type)) in H. simpl in H.
  destruct H as [Hlo Hhi].
  apply Z.leb_le in Hlo, Hhi. lia.
Qed.

(** X7: every component of a duration returned by [read_task_duration] is
    at least 1 and at most [INT_MAX]; no component can be entered as zero. *)
Theorem read_task_duration_components (fuel : nat) (w : world)
    (t : time.TaskDuration) (w' : world) :
  time.read_task_duration fuel w = Returns t w' ->
  (1 <= time.days t <= INT_MAX)%Z /\ (1 <= time.hours t <= INT_MAX)%Z
  /\ (1 <= time.minutes t <= INT_MAX)%Z /\ (1 <= time.seconds t <= INT_MAX)%Z.
Proof.
  unfold time.read_task_duration. intros H.
  apply bind_Returns in H. destruct H as [d [w1 [Hd H]]].
  apply bind_Returns in H. destruct H as [h [w2 [Hh H]]].
  apply bind_Returns in H. destruct H as [m [w3 [Hm H]]].
  apply bind_Returns in H. destruct H as [s [w4 [Hs H]]].
  injection H as <- _. simpl.
  apply read_positive_int_Returns in Hd, Hh, Hm, Hs. tauto.
Qed.

Lemma read_task_duration_components_witness :
  let t := time.mk_TaskDuration 2 3 4 5 in
  (1 <= time.days t <= INT_MAX)%Z /\ (1 <= time.hours t <= INT_MAX)%Z
  /\ (1 <= time.minutes t <= INT_MAX)%Z /\ (1 <= time.seconds t <= INT_MAX)%Z.
Proof.
  intros t.
  apply (read_task_duration_components 5
           (stdin ("0" ++ endl ++ "2" ++ endl ++ "3" ++ endl ++ "4" ++ endl
                   ++ "5" ++ endl)) t
           (mk_world (mk_istream "" false false)
              ("Please Enter Number Of Days? "
               ++ "Please enter a number between 1 and 2147483647." ++ endl
               ++ "Please Enter Number Of Days? "
               ++ "Please Enter Number Of Hours? "
               ++ "Please Enter Number Of Minutes? "
               ++ "Please Enter Number Of Seconds? "))).
  reflexivity.
Defined.

(** *** auth.h *)

Lemma may_try_false maxAttempts attempts :
  auth.may_try maxAttempts attempts = false -> maxAttempts <> 0%N.
Proof.
  unfold auth.may_try. intros H ->. discriminate.
Qed.

Lemma read_string_Returns prompt validator error_msg fuel w (v : string) w' :
  read_value StdString prompt validator error_msg fuel w = Returns v w' ->
  v <> EmptyString /\ validator v = true.
Proof.
  unfold read_value. intros H.
  apply (reader_facts.read_value_loop_Returns StdString) in H.
  destruct H as [Hvalid Hv]. split; [|exact Hv].
  intros ->. discriminate.
Qed.

(** X8: when [authenticate_with_pin] returns, it has made some number [k]
    of passes that each read a wrong PIN, and then either [read_value]
    returned a PIN equal to the correct one, which is the last thing done
    and gives the success result (so the correct PIN is not empty: an empty
    correct PIN can never authenticate), or the attempts were used up,
    which gives the failure result and needs a limit other than 0. *)
Theorem authenticate_with_pin_result
    (correctPin prompt : string) (maxAttempts : N) (failureMsg : string)
    (inner outer : nat) (w : world) (r : auth.AuthResult) (w' : world) :
  auth.authenticate_with_pin correctPin prompt maxAttempts failureMsg
    inner outer w = Returns r w' ->
  exists (k : nat) (attempts : N) (wk : world),
    (k < outer)%nat
    /\ auth.after_wrong_pins correctPin prompt maxAttempts failureMsg inner
         k 0%N w = Some (attempts, wk)
    /\ ((r = auth.mk_AuthResult true "Authentication successful"
         /\ auth.may_try maxAttempts attempts = true
         /\ read_value StdString prompt auth.nonempty
              "Invalid PIN format. Please try again." inner wk
            = Returns correctPin w'
         /\ correctPin <> EmptyString)
        \/ (r = auth.mk_AuthResult false
                  "Maximum authentication attempts exceeded"
            /\ auth.may_try maxAttempts attempts = false
            /\ maxAttempts <> 0%N
            /\ w' = wk)).
Proof.
  unfold auth.authenticate_with_pin.
  enough (Hloop : forall start,
    auth.pin_loop correctPin prompt maxAttempts failureMsg inner outer start w
    = Returns r w' ->
    exists (k : nat) (attempts : N) (wk : world),
      (k < outer)%nat
      /\ auth.after_wrong_pins correctPin prompt maxAttempts failureMsg inner
           k start w = Some (attempts, wk)
      /\ ((r = auth.mk_AuthResult true "Authentication successful"
           /\ auth.may_try maxAttempts attempts = true
           /\ read_value StdString prompt auth.nonempty
                "Invalid PIN format. Please try again." inner wk
              = Returns correctPin w'
           /\ correctPin <> EmptyString)
          \/ (r = auth.mk_AuthResult false
                    "Maximum authentication attempts exceeded"
              /\ auth.may_try maxAttempts attempts = false
              /\ maxAttempts <> 0%N
              /\ w' = wk))) by (apply Hloop).
  intros attempts. revert w attempts.
  induction outer as [|outer IH]; intros w attempts; simpl; [discriminate|].
  destruct (auth.may_try maxAttempts attempts) eqn:Etry.
  - intros H. apply bind_Returns in H.
    destruct H as [enteredPin [w1 [Hread H]]].
    destruct (String.eqb_spec enteredPin correctPin) as [Heq|Hne].
    + injection H as <- <-. subst enteredPin.
      exists O, attempts, w. split; [lia|]. split; [reflexivity|].
      left. split; [reflexivity|]. split; [exact Etry|].
      split; [exact Hread|]. now apply read_string_Returns in Hread.
    + cbv zeta in H. apply IH in H.
      destruct H as [k [a [wk [Hk [Htrace Hend]]]]].
      exists (S k), a, wk. split; [lia|]. split; [|exact Hend].
      cbn [auth.after_wrong_pins]. rewrite Etry, Hread.
      destruct (String.eqb_spec enteredPin correctPin) as [Heq|_];
        [contradiction|exact Htrace].
  - intros [= <- <-]. exists O, attempts, w.
    split; [lia|]. split; [reflexivity|]. right.
    split; [reflexivity|]. split; [exact Etry|].
    split; [now apply may_try_false in Etry|reflexivity].
Qed.

(** One wrong PIN, then the correct one. *)
Lemma authenticate_with_pin_result_witness :
  exists (k : nat) (attempts : N) (wk : world),
    (k < 5)%nat
    /\ auth.after_wrong_pins "1234" "PIN: " 3 "Wrong PIN" 2 k 0%N
         (stdin ("0000" ++ endl ++ "1234" ++ endl)) = Some (attempts, wk)
    /\ ((auth.mk_AuthResult true "Authentication successful"
         = auth.mk_AuthResult true "Authentication successful"
         /\ auth.may_try 3 attempts = true
         /\ read_value StdString "PIN: " auth.nonempty
              "Invalid PIN format. Please try again." 2 wk
            = Returns "1234"
                (mk_world (mk_istream "" false false)
                   ("PIN: Wrong PIN" ++ endl ++ "PIN: "))
         /\ "1234" <> EmptyString)
        \/ (auth.mk_AuthResult true "Authentication successful"
            = auth.mk_AuthResult false
                "Maximum authentication attempts exceeded"
            /\ auth.may_try 3 attempts = false
            /\ 3%N <> 0%N
            /\ mk_world (mk_istream "" false false)
                 ("PIN: Wrong PIN" ++ endl ++ "PIN: ") = wk)).
Proof.
  apply (authenticate_with_pin_result "1234" "PIN: " 3 "Wrong PIN" 2 5
           (stdin ("0000" ++ endl ++ "1234" ++ endl))
           (auth.mk_AuthResult true "Authentication successful")
           (mk_world (mk_istream "" false false)
              ("PIN: Wrong PIN" ++ endl ++ "PIN: "))).
  reflexivity.
Defined.

(** One line that passes both checks is read by the first attempt. *)
Lemma read_line_accepted prompt (validator : string -> bool) error_msg
    fuel w line rest :
  good (cin w) = true ->
  rdbuf (cin w) = line ++ endl ++ rest ->
  has_newline line = false ->
  line <> EmptyString -> validator line = true ->
  read_value StdString prompt validator error_msg (S fuel) w
  = Returns line (mk_world (mk_istream rest false false) (cout w ++ prompt)).
Proof.
  intros Hgood Hbuf Hline Hne Hok.
  unfold read_value. simpl.
  unfold loop_body, read_input, getline; simpl.
  rewrite Hgood, Hbuf.
  destruct (reader_facts.getline_line line rest Hline) as [Ha Hb].
  destruct (line ++ endl ++ rest) as [|c0 b0] eqn:E.
  - destruct line; discriminate.
  - simpl in Ha, Hb. rewrite Ha, Hb, Hok.
    destruct line; [now elim Hne|reflexivity].
Qed.

Lemma pin_loop_lockout correctPin prompt maxAttempts failureMsg inner rest :
  (0 < maxAttempts < auth.SIZE_MODULUS)%N ->
  forall wrong outer attempts w,
    Forall (fun l => l <> EmptyString /\ has_newline l = false
                     /\ l <> correctPin) wrong ->
    (attempts + N.of_nat (List.length wrong) = maxAttempts)%N ->
    (List.length wrong < outer)%nat ->
    good (cin w) = true ->
    rdbuf (cin w) = lines (map (fun l => l ++ endl) wrong) ++ rest ->
    auth.pin_loop correctPin prompt maxAttempts failureMsg (S inner)
      outer attempts w
    = Returns
        (auth.mk_AuthResult false "Maximum authentication attempts exceeded")
        (mk_world (mk_istream rest false false)
           (cout w
            ++ lines (repeat (prompt ++ failureMsg ++ endl)
                             (List.length wrong - 1))
            ++ match wrong with [] => EmptyString | _ => prompt end)).
Proof.
  intros Hmax. induction wrong as [|l ls IH];
    intros outer attempts w Hwrong Hcount Houter Hgood Hbuf;
    (destruct outer as [|outer]; [simpl in Houter; lia|]).
  - simpl in *. unfold auth.may_try.
    destruct (N.eqb_spec maxAttempts 0); [lia|].
    destruct (N.ltb_spec attempts maxAttempts); [lia|]. simpl.
    destruct w as [[b e f] out]. simpl in *. subst b.
    unfold good in Hgood. simpl in Hgood.
    destruct e, f; try discriminate.
    now rewrite container_facts.append_nil_r.
  - apply Forall_cons_iff in Hwrong.
    destruct Hwrong as [[Hne [Hnl Hpin]] Hrest].
    cbn [auth.pin_loop].
    assert (Htry : auth.may_try maxAttempts attempts = true).
    { unfold auth.may_try. apply orb_true_iff. right. apply N.ltb_lt.
      simpl in Hcount. lia. }
    rewrite Htry.
    rewrite (read_line_accepted prompt auth.nonempty
               "Invalid PIN format. Please try again." inner w l
               (lines (map (fun l => l ++ endl) ls) ++ rest) Hgood).
    + cbn [bind].
      destruct (String.eqb_spec l correctPin) as [Heq|_]; [contradiction|].
      assert (Hincr : auth.incr attempts = (attempts + 1)%N).
      { unfold auth.incr. apply N.mod_small. simpl in Hcount. lia. }
      rewrite Hincr.
      destruct ls as [|l2 ls'].
      * (* the last permitted attempt: no failure message *)
        assert (Hlast : auth.may_try maxAttempts (attempts + 1) = false).
        { unfold auth.may_try.
          destruct (N.eqb_spec maxAttempts 0); [lia|].
          destruct (N.ltb_spec (attempts + 1) maxAttempts);
            [simpl in Hcount; lia|reflexivity]. }
        rewrite Hlast.
        rewrite (IH outer (attempts + 1)%N); try assumption;
          try reflexivity; try (simpl in *; lia).
        simpl. now rewrite container_facts.append_nil_r.
      * assert (Hmore : auth.may_try maxAttempts (attempts + 1) = true).
        { unfold auth.may_try. apply orb_true_iff. right. apply N.ltb_lt.
          simpl in Hcount. lia. }
        rewrite Hmore.
        rewrite (IH outer (attempts + 1)%N); try assumption;
          try reflexivity; try (simpl in *; lia).
        cbn [List.length Nat.sub repeat lines fold_right cout print].
        rewrite Nat.sub_0_r.
        do 2 f_equal. rewrite !container_facts.append_assoc. reflexivity.
    + rewrite Hbuf. cbn [map lines fold_right].
      rewrite !container_facts.append_assoc. reflexivity.
    + exact Hnl.
    + exact Hne.
    + unfold auth.nonempty. destruct l; [now elim Hne|reflexivity].
Qed.

(** X9: with a limit of [n > 0] attempts, [n] wrong PINs in a row end
    [authenticate_with_pin] with the failure result: it reads exactly those
    [n] lines and nothing after them, and it writes the prompt [n] times and
    the failure message after each wrong PIN but the last. *)
Theorem authenticate_with_pin_locks_out
    (correctPin prompt : string) (failureMsg : string) (inner outer : nat)
    (wrong : list string) (rest : string) (w : world) :
  wrong <> [] ->
  (N.of_nat (List.length wrong) < auth.SIZE_MODULUS)%N ->
  Forall (fun l => l <> EmptyString /\ has_newline l = false
                   /\ l <> correctPin) wrong ->
  (List.length wrong < outer)%nat ->
  good (cin w) = true ->
  rdbuf (cin w) = lines (map (fun l => l ++ endl) wrong) ++ rest ->
  auth.authenticate_with_pin correctPin prompt
    (N.of_nat (List.length wrong)) failureMsg (S inner) outer w
  = Returns
      (auth.mk_AuthResult false "Maximum authentication attempts exceeded")
      (mk_world (mk_istream rest false false)
         (cout w
          ++ lines (repeat (prompt ++ failureMsg ++ endl)
                           (List.length wrong - 1))
          ++ prompt)).
Proof.
  intros Hne Hsize Hwrong Houter Hgood Hbuf.
  unfold auth.authenticate_with_pin.
  rewrite (pin_loop_lockout correctPin prompt (N.of_nat (List.length wrong))
             failureMsg inner rest) with (wrong := wrong);
    try assumption; try reflexivity.
  - destruct wrong; [now elim Hne|reflexivity].
  - destruct wrong; [now elim Hne|]. simpl in *. lia.
Qed.

Lemma authenticate_with_pin_locks_out_witness :
  auth.authenticate_with_pin "1234" "PIN: " 3 "Wrong PIN" 1 4
    (stdin ("0000" ++ endl ++ "1111" ++ endl ++ "2222" ++ endl
            ++ "1234" ++ endl))
  = Returns
      (auth.mk_AuthResult false "Maximum authentication attempts exceeded")
      (mk_world (mk_istream ("1234" ++ endl) false false)
         ("PIN: Wrong PIN" ++ endl ++ "PIN: Wrong PIN" ++ endl ++ "PIN: ")).
Proof.
  apply (authenticate_with_pin_locks_out "1234" "PIN: " "Wrong PIN" 0 4
           ["0000"; "1111"; "2222"] ("1234" ++ endl)
           (stdin ("0000" ++ endl ++ "1111" ++ endl ++ "2222" ++ endl
                   ++ "1234" ++ endl))).
  - discriminate.
  - reflexivity.
  - repeat constructor; discriminate.
  - simpl; lia.
  - reflexivity.
  - reflexivity.
Defined.

(** X10: when [authenticate_with_credentials] returns, it has made some
    number [k] of passes that each read a username and a password the
    validator refused, and then either it read a username and a password,
    both non-empty, that the validator accepts, which is the last thing done
    and gives the success result, or the attempts were used up, which gives
    the failure result and needs a limit other than 0. *)
Theorem authenticate_with_credentials_result
    (validator : string -> string -> bool)
    (usernamePrompt passwordPrompt : string) (maxAttempts : N)
    (failureMsg : string) (inner outer : nat) (w : world)
    (r : auth.AuthResult) (w' : world) :
  auth.authenticate_with_credentials validator usernamePrompt passwordPrompt
    maxAttempts failureMsg inner outer w = Returns r w' ->
  exists (k : nat) (attempts : N) (wk : world),
    (k < outer)%nat
    /\ auth.after_refused_credentials validator usernamePrompt passwordPrompt
         maxAttempts failureMsg inner k 0%N w = Some (attempts, wk)
    /\ ((r = auth.mk_AuthResult true "Authentication successful"
         /\ auth.may_try maxAttempts attempts = true
         /\ exists username password w1,
              read_value StdString usernamePrompt auth.nonempty
                "Username cannot be empty" inner wk
              = Returns username w1
              /\ read_value StdString passwordPrompt auth.nonempty
                   "Password cannot be empty" inner w1
                 = Returns password w'
              /\ username <> EmptyString /\ password <> EmptyString
              /\ validator username password = true)
        \/ (r = auth.mk_AuthResult false
                  "Maximum authentication attempts exceeded"
            /\ auth.may_try maxAttempts attempts = false
            /\ maxAttempts <> 0%N
            /\ w' = wk)).
Proof.
  unfold auth.authenticate_with_credentials.
  enough (Hloop : forall start,
    auth.credentials_loop validator usernamePrompt passwordPrompt maxAttempts
      failureMsg inner outer start w = Returns r w' ->
    exists (k : nat) (attempts : N) (wk : world),
      (k < outer)%nat
      /\ auth.after_refused_credentials validator usernamePrompt
           passwordPrompt maxAttempts failureMsg inner k start w
         = Some (attempts, wk)
      /\ ((r = auth.mk_AuthResult true "Authentication successful"
           /\ auth.may_try maxAttempts attempts = true
           /\ exists username password w1,
                read_value StdString usernamePrompt auth.nonempty
                  "Username cannot be empty" inner wk
                = Returns username w1
                /\ read_value StdString passwordPrompt auth.nonempty
                     "Password cannot be empty" inner w1
                   = Returns password w'
                /\ username <> EmptyString /\ password <> EmptyString
                /\ validator username password = true)
          \/ (r = auth.mk_AuthResult false
                    "Maximum authentication attempts exceeded"
              /\ auth.may_try maxAttempts attempts = false
              /\ maxAttempts <> 0%N
              /\ w' = wk))) by (apply Hloop).
  intros attempts. revert w attempts.
  induction outer as [|outer IH]; intros w attempts; simpl; [discriminate|].
  destruct (auth.may_try maxAttempts attempts) eqn:Etry.
  - intros H. apply bind_Returns in H.
    destruct H as [username [w1 [Huser H]]].
    apply bind_Returns in H.
    destruct H as [password [w2 [Hpass H]]].
    destruct (validator username password) eqn:Eok.
    + injection H as <- <-.
      exists O, attempts, w. split; [lia|]. split; [reflexivity|].
      left. split; [reflexivity|]. split; [exact Etry|].
      exists username, password, w1.
      split; [exact Huser|]. split; [exact Hpass|].
      apply read_string_Returns in Huser, Hpass. tauto.
    + cbv zeta in H. apply IH in H.
      destruct H as [k [a [wk [Hk [Htrace Hend]]]]].
      exists (S k), a, wk. split; [lia|]. split; [|exact Hend].
      cbn [auth.after_refused_credentials].
      rewrite Etry, Huser, Hpass, Eok. exact Htrace.
  - intros [= <- <-]. exists O, attempts, w.
    split; [lia|]. split; [reflexivity|]. right.
    split; [reflexivity|]. split; [exact Etry|].
    split; [now apply may_try_false in Etry|reflexivity].
Qed.

(** An empty password line is asked again by [read_value]; the pair is
    then accepted. *)
Lemma authenticate_with_credentials_result_witness :
  let validator := fun u p => (String.eqb u "ada" && String.eqb p "lovelace")%bool in
  let w' := mk_world (mk_istream "" false false)
              ("Username: Password: Password cannot be empty" ++ endl
               ++ "Password: ") in
  exists (k : nat) (attempts : N) (wk : world),
    (k < 5)%nat
    /\ auth.after_refused_credentials validator "Username: " "Password: " 0
         "Invalid credentials" 2 k 0%N
         (stdin ("ada" ++ endl ++ "" ++ endl ++ "lovelace" ++ endl))
       = Some (attempts, wk)
    /\ ((auth.mk_AuthResult true "Authentication successful"
         = auth.mk_AuthResult true "Authentication successful"
         /\ auth.may_try 0 attempts = true
         /\ exists username password w1,
              read_value StdString "Username: " auth.nonempty
                "Username cannot be empty" 2 wk
              = Returns username w1
              /\ read_value StdString "Password: " auth.nonempty
                   "Password cannot be empty" 2 w1
                 = Returns password w'
              /\ username <> EmptyString /\ password <> EmptyString
              /\ validator username password = true)
        \/ (auth.mk_AuthResult true "Authentication successful"
            = auth.mk_AuthResult false
                "Maximum authentication attempts exceeded"
            /\ auth.may_try 0 attempts = false
            /\ 0%N <> 0%N
            /\ w' = wk)).
Proof.
  intros validator w'.
  apply (authenticate_with_credentials_result validator
           "Username: " "Password: " 0 "Invalid credentials" 2 5
           (stdin ("ada" ++ endl ++ "" ++ endl ++ "lovelace" ++ endl))
           (auth.mk_AuthResult true "Authentication successful") w').
  reflexivity.
Defined.

End caller_facts.

(** ** More properties of the container *)

Module container_extra_facts.
Import std mylib.

Lemma assign_assign Fields : forall (i : Index Fields) v v' t,
  assign i v' (assign i v t) = assign i v' t.
Proof.
  induction Fields as [|T Ts IH]; intros i; [destruct i|].
  destruct i as [j|]; intros v v' t; simpl; [now rewrite IH|reflexivity].
Qed.

Lemma assign_commute Fields : forall (i j : Index Fields) v u t,
  i <> j -> assign i v (assign j u t) = assign j u (assign i v t).
Proof.
  induction Fields as [|T Ts IH]; intros i; [destruct i|].
  destruct i as [i|], j as [j|]; intros v u t Hne; simpl; try reflexivity.
  - rewrite IH; [reflexivity|congruence].
  - now elim Hne.
Qed.

(** X17: [set_field<i>] changes slot [i] and nothing else: the names and
    every other slot stay as they were, a second write to the same slot
    replaces the first, and writes to different slots can be done in either
    order. *)
Theorem set_field_touches_one_slot
    (Fields : list ctype) (i j : Index Fields)
    (v v' : cval (tuple_element_t i)) (u : cval (tuple_element_t j))
    (c : DataContainer Fields) :
  field_names (set_field i v c) = field_names c
  /\ set_field i v' (set_field i v c) = set_field i v' c
  /\ (i <> j ->
      get_field j (set_field i v c) = get_field j c
      /\ set_field i v (set_field j u c) = set_field j u (set_field i v c)).
Proof.
  unfold set_field, get_field; simpl. split; [reflexivity|split].
  - now rewrite assign_assign.
  - intros Hne. split.
    + now apply container_facts.get_assign_other.
    + now rewrite assign_commute.
Qed.

Lemma set_field_touches_one_slot_witness :
  let c : DataContainer [int; StdString] :=
    mk_DataContainer (Fields := [int; StdString])
      (30%Z, ("Alice", tt)) ["Age"; "Name"] in
  get_field (Some None : Index [int; StdString])
    (set_field (None : Index [int; StdString]) 31%Z c) = "Alice"
  /\ set_field (None : Index [int; StdString]) 31%Z
       (set_field (Some None : Index [int; StdString]) "Bob" c)
     = set_field (Some None : Index [int; StdString]) "Bob"
         (set_field (None : Index [int; StdString]) 31%Z c).
Proof.
  intros c.
  apply (proj2 (proj2 (set_field_touches_one_slot [int; StdString]
                         None (Some None) 31%Z 0%Z "Bob" c))).
  discriminate.
Defined.

Section populate.
Context {Fields : list ctype}.

Lemma read_and_set_field_Returns fuel (i : Index Fields) c w c' w' :
  read_and_set_field fuel i (c, w) = Returns tt (c', w') ->
  exists v, c' = set_field i v c
            /\ InputValidator.is_valid (tuple_element_t i) v = true.
Proof.
  unfold read_and_set_field.
  destruct (get_field_name (index_value i) c) as [e|name]; [discriminate|].
  match goal with
  | |- context [read_value ?T ?p ?P ?m ?f ?x] =>
      destruct (read_value T p P m f x) as [v w1|e w1|w1] eqn:E
  end; try discriminate.
  intros [= <- <-]. exists v. split; [reflexivity|].
  unfold read_value in E.
  now apply reader_facts.read_value_loop_Returns in E.
Qed.

Lemma helper_Returns_valid fuel indices :
  NoDup indices ->
  forall (c : DataContainer Fields) w c' w',
    read_data_container_helper fuel indices (c, w) = Returns tt (c', w') ->
    field_names c' = field_names c
    /\ forall i, In i indices ->
         InputValidator.is_valid (tuple_element_t i) (get_field i c') = true.
Proof.
  induction indices as [|a rest IH]; intros Hnd c w c' w' Hrun.
  - injection Hrun as <- _. split; [reflexivity|]. intros i [].
  - apply NoDup_cons_iff in Hnd. destruct Hnd as [Hnotin Hnd].
    unfold read_data_container_helper in Hrun. cbn [comma_fold] in Hrun.
    destruct (read_and_set_field fuel a (c, w)) as [[] [c1 w1]|e s1|s1] eqn:E;
      try discriminate.
    apply read_and_set_field_Returns in E. destruct E as [v [-> Hv]].
    pose proof (container_facts.helper_frame fuel rest (set_field a v c) w1)
      as Hframe.
    unfold read_data_container_helper in Hframe, IH.
    rewrite Hrun in Hframe. simpl in Hframe. destruct Hframe as [Hnames Hslots].
    destruct (IH Hnd _ _ _ _ Hrun) as [_ Hvalid].
    split; [exact Hnames|].
    intros i [<-|Hin]; [|now apply Hvalid].
    rewrite (Hslots a Hnotin).
    unfold get_field, set_field; simpl.
    now rewrite container_facts.get_assign_same.
Qed.

End populate.

(** X18: [read_data_container] throws the arity error before anything is
    written or read when the number of names is wrong; and a container it
    returns carries the given names and holds, in every field, a value that
    passes the validity rule of the field's type (a text field is never
    empty, a floating-point field is finite). *)
Theorem read_data_container_result
    (Fields : list ctype) (names : list string) (fuel : nat) (w : world) :
  (List.length names <> List.length Fields ->
   read_data_container (Fields := Fields) names fuel w
   = Throws (invalid_argument
               "Number of field names must match number of fields") w)
  /\ (forall (c : DataContainer Fields) w',
        read_data_container names fuel w = Returns c w' ->
        field_names c = names
        /\ List.length names = List.length Fields
        /\ forall i : Index Fields,
             InputValidator.is_valid (tuple_element_t i) (get_field i c)
             = true).
Proof.
  unfold read_data_container. split.
  - intros Hlen. unfold construct.
    apply Nat.eqb_neq in Hlen. now rewrite Hlen.
  - intros c w'.
    destruct (construct names) as [e|c0] eqn:Ec; [discriminate|].
    apply container_facts.construct_inr in Ec. destruct Ec as [-> Hlen].
    destruct (read_data_container_helper fuel (make_index_sequence Fields)
                (mk_DataContainer (tuple_init Fields) names, w))
      as [[] [c1 w1]|e [c1 w1]|[c1 w1]] eqn:E; try discriminate.
    intros [= <- <-].
    apply helper_Returns_valid in E;
      [|apply container_facts.make_index_sequence_NoDup].
    destruct E as [Hnames Hvalid]. split; [exact Hnames|]. split; [exact Hlen|].
    intros i. apply Hvalid, container_facts.In_make_index_sequence.
Qed.

Lemma read_data_container_result_witness :
  read_data_container (Fields := [int; StdString]) ["Age"] 5
    (stdin ("30" ++ endl))
  = Throws (invalid_argument
              "Number of field names must match number of fields")
           (stdin ("30" ++ endl))
  /\ (let c : DataContainer [int; StdString] :=
        mk_DataContainer (Fields := [int; StdString])
          (30%Z, ("Alice", tt)) ["Age"; "Name"] in
      field_names c = ["Age"; "Name"]
      /\ List.length ["Age"; "Name"] = List.length [int; StdString]
      /\ forall i : Index [int; StdString],
           InputValidator.is_valid (tuple_element_t i) (get_field i c) = true).
Proof.
  split.
  - apply (proj1 (read_data_container_result [int; StdString] ["Age"] 5
                    (stdin ("30" ++ endl)))).
    simpl; lia.
  - apply (proj2 (read_data_container_result [int; StdString]
                    ["Age"; "Name"] 5
                    (stdin ("30" ++ endl ++ endl ++ "Alice" ++ endl)))
             (mk_DataContainer (Fields := [int; StdString])
                (30%Z, ("Alice", tt)) ["Age"; "Name"])
             (mk_world (mk_istream "" false false)
                ("Enter Age: Enter Name: Invalid input. Please try again."
                 ++ endl ++ "Enter Name: "))).
    reflexivity.
Defined.

End container_extra_facts.
